(** * p2p/base/transport_description.cc

    A shallow embedding of the ICE credential validators,
    [IceParameters::Parse], the connection-role conversions and the copy
    operations of [TransportDescription], with the properties the
    specification states about them. *)

From Stdlib Require Import ZArith Ascii String DecimalString.
From stdpp Require Import gmap strings list fin_maps.

Open Scope string_scope.

(** ** Characters and strings *)

(** [char] is an 8-bit value; [absl::string_view] and [std::string] are
    sequences of them, [size()] is [String.length]. *)

Definition code (c : ascii) : nat := nat_of_ascii c.

(** [absl::ascii_isalnum]: the classification of the "C" locale, the
    digits and the 52 letters of ASCII. *)
Definition ascii_isdigit (c : ascii) : bool :=
  (48 <=? code c)%nat && (code c <=? 57)%nat.

Definition ascii_isupper (c : ascii) : bool :=
  (65 <=? code c)%nat && (code c <=? 90)%nat.

Definition ascii_islower (c : ascii) : bool :=
  (97 <=? code c)%nat && (code c <=? 122)%nat.

Definition ascii_isalnum (c : ascii) : bool :=
  ascii_isdigit c || ascii_isupper c || ascii_islower c.

(** [absl::ascii_tolower]: the upper-case letters move by 32, every other
    value is kept. *)
Definition ascii_tolower (c : ascii) : ascii :=
  if ascii_isupper c then ascii_of_nat (code c + 32) else c.

Definition ascii_toupper (c : ascii) : ascii :=
  if ascii_islower c then ascii_of_nat (code c - 32) else c.

(** [absl::c_all_of] over the characters of a string. *)
Fixpoint c_all_of (s : string) (p : ascii -> bool) : bool :=
  match s with
  | EmptyString => true
  | String c rest => p c && c_all_of rest p
  end.

(** [absl::EqualsIgnoreCase]: same size, and the same characters once
    both are lowered. *)
Fixpoint EqualsIgnoreCase (piece1 piece2 : string) : bool :=
  match piece1, piece2 with
  | EmptyString, EmptyString => true
  | String a r1, String b r2 =>
      Ascii.eqb (ascii_tolower a) (ascii_tolower b) && EqualsIgnoreCase r1 r2
  | _, _ => false
  end.

(** A string with every character lowered: what [EqualsIgnoreCase]
    compares. *)
Fixpoint lowered (s : string) : string :=
  match s with
  | EmptyString => EmptyString
  | String c rest => String (ascii_tolower c) (lowered rest)
  end.

(** [std::string::empty] / [absl::string_view::empty]. *)
Definition empty (s : string) : bool :=
  match s with EmptyString => true | String _ _ => false end.

(** [rtc::StringBuilder::operator<<] on a [size_t]: its decimal digits. *)
Definition dec (n : nat) : string := NilZero.string_of_uint (Nat.to_uint n).

(** ** Errors *)

(** Modelled from the spec: the error-kind enumeration and the error
    value are declared outside this file ("a structured error carrying a
    SYNTAX_ERROR kind and a human-readable message").  The kinds other
    than [SYNTAX_ERROR] are never produced here. *)
Inductive RTCErrorType : Set :=
  | NONE
  | INVALID_PARAMETER
  | SYNTAX_ERROR
  | INTERNAL_ERROR.

Record RTCError : Set := mkRTCError {
  error_type : RTCErrorType;
  message : string
}.

Inductive RTCErrorOr (T : Type) : Type :=
  | Value (v : T)
  | Error (e : RTCError).
Arguments Value {T} v.
Arguments Error {T} e.

Definition ok {T} (r : RTCErrorOr T) : bool :=
  match r with Value _ => true | Error _ => false end.

(** ** The characters of an ICE credential *)

Definition IsIceChar (c : ascii) : bool :=
  ascii_isalnum c || Ascii.eqb c "+" || Ascii.eqb c "/".

(** The set the specification writes, [{A-Z,a-z,0-9,+,/}], spelled out. *)
Definition ice_alphabet : list ascii :=
  list_ascii_of_string
    "ABCDEFGHIJKLMNOPQRSTUVWXYZabcdefghijklmnopqrstuvwxyz0123456789+/".

Definition allowed_char (c : ascii) : Prop := In c ice_alphabet.

Fixpoint all_allowed (s : string) : Prop :=
  match s with
  | EmptyString => True
  | String c rest => allowed_char c /\ all_allowed rest
  end.

(** [MIN <= len(s) <= MAX], the length rule of a credential field. *)
Definition in_bounds (lo hi : nat) (s : string) : Prop :=
  lo <= String.length s <= hi.

(** A validated field: within its bound pair, every character allowed. *)
Definition validated (lo hi : nat) (s : string) : Prop :=
  in_bounds lo hi s /\ all_allowed s.

(** ** The credential validators *)

Record IceParameters : Set := mkIceParameters {
  ufrag : string;
  pwd : string
}.

(** [IceParameters()]: both strings default-constructed. *)
Definition IceParameters_default : IceParameters :=
  {| ufrag := ""; pwd := "" |}.

Section Credentials.

(** The four bounds come from [p2p/base/p2p_constants.h], which is not
    part of this file; they are [size_t] constants. *)
Variables ICE_UFRAG_MIN_LENGTH ICE_UFRAG_MAX_LENGTH : nat.
Variables ICE_PWD_MIN_LENGTH ICE_PWD_MAX_LENGTH : nat.

Definition ufrag_length_message : string :=
  "ICE ufrag must be between " ++ dec ICE_UFRAG_MIN_LENGTH ++ " and "
    ++ dec ICE_UFRAG_MAX_LENGTH ++ " characters long.".

Definition ufrag_chars_message : string :=
  "ICE ufrag must contain only alphanumeric characters, '+', and '/'.".

Definition pwd_length_message : string :=
  "ICE pwd must be between " ++ dec ICE_PWD_MIN_LENGTH ++ " and "
    ++ dec ICE_PWD_MAX_LENGTH ++ " characters long.".

Definition pwd_chars_message : string :=
  "ICE pwd must contain only alphanumeric characters, '+', and '/'.".

Definition ParseIceUfrag (raw_ufrag : string) : RTCErrorOr string :=
  if negb ((ICE_UFRAG_MIN_LENGTH <=? String.length raw_ufrag)%nat
           && (String.length raw_ufrag <=? ICE_UFRAG_MAX_LENGTH)%nat)
  then Error (mkRTCError SYNTAX_ERROR ufrag_length_message)
  else if negb (c_all_of raw_ufrag IsIceChar)
  then Error (mkRTCError SYNTAX_ERROR ufrag_chars_message)
  else Value raw_ufrag.

Definition ParseIcePwd (raw_pwd : string) : RTCErrorOr string :=
  if negb ((ICE_PWD_MIN_LENGTH <=? String.length raw_pwd)%nat
           && (String.length raw_pwd <=? ICE_PWD_MAX_LENGTH)%nat)
  then Error (mkRTCError SYNTAX_ERROR pwd_length_message)
  else if negb (c_all_of raw_pwd IsIceChar)
  then Error (mkRTCError SYNTAX_ERROR pwd_chars_message)
  else Value raw_pwd.

Definition Parse (raw_ufrag raw_pwd : string) : RTCErrorOr IceParameters :=
  if empty raw_ufrag && empty raw_pwd then Value IceParameters_default
  else
    match ParseIceUfrag raw_ufrag with
    | Error e => Error e
    | Value ufrag_value =>
        match ParseIcePwd raw_pwd with
        | Error e => Error e
        | Value pwd_value =>
            Value {| ufrag := ufrag_value; pwd := pwd_value |}
        end
    end.

End Credentials.

(** ** Connection roles *)

(** Modelled from the spec: the enumeration is declared in the header,
    which is not part of this file; the specification gives it as the
    closed enumeration {None, Active, Passive, ActPass, HoldConn}.  A C++
    enumeration without initialisers numbers its members from 0 in that
    order, and an object of the type can hold other integers, which is why
    [ConnectionRoleToString] has a [default] case. *)
Definition ConnectionRole : Set := Z.

Definition CONNECTIONROLE_NONE : ConnectionRole := 0%Z.
Definition CONNECTIONROLE_ACTIVE : ConnectionRole := 1%Z.
Definition CONNECTIONROLE_PASSIVE : ConnectionRole := 2%Z.
Definition CONNECTIONROLE_ACTPASS : ConnectionRole := 3%Z.
Definition CONNECTIONROLE_HOLDCONN : ConnectionRole := 4%Z.

Definition named_role (role : ConnectionRole) : Prop :=
  role = CONNECTIONROLE_ACTIVE \/ role = CONNECTIONROLE_PASSIVE \/
  role = CONNECTIONROLE_ACTPASS \/ role = CONNECTIONROLE_HOLDCONN.

(** "In any letter case": character by character, [s] has the token's
    character, or its upper-case or lower-case form. *)
Definition case_variant_char (a b : ascii) : Prop :=
  b = a \/ b = ascii_toupper a \/ b = ascii_tolower a.

Fixpoint case_variant (token s : string) : Prop :=
  match token, s with
  | EmptyString, EmptyString => True
  | String a r1, String b r2 => case_variant_char a b /\ case_variant r1 r2
  | _, _ => False
  end.

Section Roles.

(** The four tokens come from [p2p/base/p2p_constants.h]. *)
Variables CONNECTIONROLE_ACTIVE_STR CONNECTIONROLE_PASSIVE_STR : string.
Variables CONNECTIONROLE_ACTPASS_STR CONNECTIONROLE_HOLDCONN_STR : string.

Definition roles : list string :=
  [CONNECTIONROLE_ACTIVE_STR; CONNECTIONROLE_PASSIVE_STR;
   CONNECTIONROLE_ACTPASS_STR; CONNECTIONROLE_HOLDCONN_STR].

(** The loop of [StringToConnectionRole] from index [i] on, [rest] being
    [roles[i..]].  The out-parameter [*role] is passed in and returned
    next to the [bool] result. *)
Fixpoint scan_roles (rest : list string) (i : nat) (role_str : string)
    (role : ConnectionRole) : bool * ConnectionRole :=
  match rest with
  | [] => (false, role)
  | roles_i :: rest' =>
      if EqualsIgnoreCase roles_i role_str
      then (true, (CONNECTIONROLE_ACTIVE + Z.of_nat i)%Z)
      else scan_roles rest' (S i) role_str role
  end.

Definition StringToConnectionRole (role_str : string)
    (role : ConnectionRole) : bool * ConnectionRole :=
  scan_roles roles 0 role_str role.

(** The out-parameter [*role_str] is passed in and returned next to the
    [bool] result. *)
Definition ConnectionRoleToString (role : ConnectionRole)
    (role_str : string) : bool * string :=
  if (role =? CONNECTIONROLE_ACTIVE)%Z then (true, CONNECTIONROLE_ACTIVE_STR)
  else if (role =? CONNECTIONROLE_ACTPASS)%Z
  then (true, CONNECTIONROLE_ACTPASS_STR)
  else if (role =? CONNECTIONROLE_PASSIVE)%Z
  then (true, CONNECTIONROLE_PASSIVE_STR)
  else if (role =? CONNECTIONROLE_HOLDCONN)%Z
  then (true, CONNECTIONROLE_HOLDCONN_STR)
  else (false, role_str).

(** The token the specification attaches to each named role. *)
Definition token_of (role : ConnectionRole) : string :=
  if (role =? CONNECTIONROLE_ACTIVE)%Z then CONNECTIONROLE_ACTIVE_STR
  else if (role =? CONNECTIONROLE_PASSIVE)%Z then CONNECTIONROLE_PASSIVE_STR
  else if (role =? CONNECTIONROLE_ACTPASS)%Z then CONNECTIONROLE_ACTPASS_STR
  else CONNECTIONROLE_HOLDCONN_STR.

(** No two tokens are the same word up to letter case. *)
Definition tokens_distinct : Prop :=
  EqualsIgnoreCase CONNECTIONROLE_ACTIVE_STR CONNECTIONROLE_PASSIVE_STR = false /\
  EqualsIgnoreCase CONNECTIONROLE_ACTIVE_STR CONNECTIONROLE_ACTPASS_STR = false /\
  EqualsIgnoreCase CONNECTIONROLE_ACTIVE_STR CONNECTIONROLE_HOLDCONN_STR = false /\
  EqualsIgnoreCase CONNECTIONROLE_PASSIVE_STR CONNECTIONROLE_ACTPASS_STR = false /\
  EqualsIgnoreCase CONNECTIONROLE_PASSIVE_STR CONNECTIONROLE_HOLDCONN_STR = false /\
  EqualsIgnoreCase CONNECTIONROLE_ACTPASS_STR CONNECTIONROLE_HOLDCONN_STR = false.

End Roles.

(** ** Transport descriptions *)

Inductive IceMode : Set := ICEMODE_FULL | ICEMODE_LITE.

(** Objects live at addresses; a fingerprint lives in a heap cell that a
    [std::unique_ptr] points to. *)
Abbreviation addr := positive.
Abbreviation loc := positive.

Section Transport.

(** [rtc::SSLFingerprint] and the type of [opaque_parameters] are
    declared elsewhere; both are copyable values. *)
Context {SSLFingerprint OpaqueParameters : Type}.

Record TransportDescription : Type := mkTransportDescription {
  transport_options : list string;
  ice_ufrag : string;
  ice_pwd : string;
  ice_mode : IceMode;
  connection_role : ConnectionRole;
  identity_fingerprint : option loc;
  opaque_parameters : OpaqueParameters
}.

Record Memory : Type := mkMemory {
  fingerprints : gmap positive SSLFingerprint;
  objects : gmap positive TransportDescription
}.

(** What [identity_fingerprint.get()] points to. *)
Definition fingerprint_value (m : Memory) (td : TransportDescription)
    : option SSLFingerprint :=
  match identity_fingerprint td with
  | None => None
  | Some l => fingerprints m !! l
  end.

(** [new rtc::SSLFingerprint(fp)]: a cell no pointer refers to yet. *)
Definition new_fingerprint (fp : SSLFingerprint) (m : Memory) : loc * Memory :=
  let l := fresh (dom (fingerprints m)) in
  (l, {| fingerprints := <[l := fp]> (fingerprints m); objects := objects m |}).

(** [delete p] for a non-null [p]; undefined on a cell that is not
    allocated. *)
Definition delete_fingerprint (l : loc) (m : Memory) : option Memory :=
  match fingerprints m !! l with
  | None => None
  | Some _ =>
      Some {| fingerprints := delete l (fingerprints m); objects := objects m |}
  end.

(** Modelled from the spec: [CopyFingerprint] is a static member defined
    in the header, which is not part of this file: "the fingerprint is
    deep-copied into an exclusively-owned slot (null in, null out)".
    Reading through a dangling pointer is undefined ([None]). *)
Definition CopyFingerprint (from : option loc) (m : Memory)
    : option (option loc * Memory) :=
  match from with
  | None => Some (None, m)
  | Some l =>
      match fingerprints m !! l with
      | None => None
      | Some fp => let '(l', m') := new_fingerprint fp m in Some (Some l', m')
      end
  end.

Definition read (a : addr) (m : Memory) : option TransportDescription :=
  objects m !! a.

Definition write (a : addr) (td : TransportDescription) (m : Memory) : Memory :=
  {| fingerprints := fingerprints m; objects := <[a := td]> (objects m) |}.

Definition set_transport_options v (td : TransportDescription) :=
  mkTransportDescription v (ice_ufrag td) (ice_pwd td) (ice_mode td)
    (connection_role td) (identity_fingerprint td) (opaque_parameters td).
Definition set_ice_ufrag v (td : TransportDescription) :=
  mkTransportDescription (transport_options td) v (ice_pwd td) (ice_mode td)
    (connection_role td) (identity_fingerprint td) (opaque_parameters td).
Definition set_ice_pwd v (td : TransportDescription) :=
  mkTransportDescription (transport_options td) (ice_ufrag td) v (ice_mode td)
    (connection_role td) (identity_fingerprint td) (opaque_parameters td).
Definition set_ice_mode v (td : TransportDescription) :=
  mkTransportDescription (transport_options td) (ice_ufrag td) (ice_pwd td) v
    (connection_role td) (identity_fingerprint td) (opaque_parameters td).
Definition set_connection_role v (td : TransportDescription) :=
  mkTransportDescription (transport_options td) (ice_ufrag td) (ice_pwd td)
    (ice_mode td) v (identity_fingerprint td) (opaque_parameters td).
Definition set_identity_fingerprint v (td : TransportDescription) :=
  mkTransportDescription (transport_options td) (ice_ufrag td) (ice_pwd td)
    (ice_mode td) (connection_role td) v (opaque_parameters td).
Definition set_opaque_parameters v (td : TransportDescription) :=
  mkTransportDescription (transport_options td) (ice_ufrag td) (ice_pwd td)
    (ice_mode td) (connection_role td) (identity_fingerprint td) v.

(** The statement [field = from.field;] inside a member function of the
    object at [this]: [from] is read in the current memory. *)
Definition assign_field {V : Type}
    (set : V -> TransportDescription -> TransportDescription)
    (get : TransportDescription -> V)
    (this from : addr) (m : Memory) : option Memory :=
  f ← read from m;
  t ← read this m;
  Some (write this (set (get f) t) m).

(** [identity_fingerprint.reset(p)]: the pointer is replaced, then the
    cell it held before is deleted. *)
Definition reset_identity_fingerprint (p : option loc) (this : addr)
    (m : Memory) : option Memory :=
  t ← read this m;
  let m1 := write this (set_identity_fingerprint p t) m in
  match identity_fingerprint t with
  | None => Some m1
  | Some old => delete_fingerprint old m1
  end.

(** The copy constructor, building the object at [this]. *)
Definition TransportDescription_copy (this from : addr) (m : Memory)
    : option Memory :=
  f ← read from m;
  '(p, m1) ← CopyFingerprint (identity_fingerprint f) m;
  Some (write this
          {| transport_options := transport_options f;
             ice_ufrag := ice_ufrag f;
             ice_pwd := ice_pwd f;
             ice_mode := ice_mode f;
             connection_role := connection_role f;
             identity_fingerprint := p;
             opaque_parameters := opaque_parameters f |} m1).

(** [operator=]; the result is the memory after the call (the returned
    reference is [*this]). *)
Definition TransportDescription_assign (this from : addr) (m : Memory)
    : option Memory :=
  if decide (this = from) then Some m
  else
    m1 ← assign_field set_transport_options transport_options this from m;
    m2 ← assign_field set_ice_ufrag ice_ufrag this from m1;
    m3 ← assign_field set_ice_pwd ice_pwd this from m2;
    m4 ← assign_field set_ice_mode ice_mode this from m3;
    m5 ← assign_field set_connection_role connection_role this from m4;
    f ← read from m5;
    '(p, m6) ← CopyFingerprint (identity_fingerprint f) m5;
    m7 ← reset_identity_fingerprint p this m6;
    assign_field set_opaque_parameters opaque_parameters this from m7.

(** Every fingerprint pointer refers to an allocated cell, and no cell
    is pointed to by two objects. *)
Definition owned (m : Memory) : Prop :=
  (forall a td l, objects m !! a = Some td ->
     identity_fingerprint td = Some l -> is_Some (fingerprints m !! l)) /\
  (forall a b ta tb l, objects m !! a = Some ta -> objects m !! b = Some tb ->
     identity_fingerprint ta = Some l -> identity_fingerprint tb = Some l ->
     a = b).

(** Equality of everything but the fingerprint pointer. *)
Definition same_fields (x y : TransportDescription) : Prop :=
  transport_options x = transport_options y /\
  ice_ufrag x = ice_ufrag y /\
  ice_pwd x = ice_pwd y /\
  ice_mode x = ice_mode y /\
  connection_role x = connection_role y /\
  opaque_parameters x = opaque_parameters y.

(** The object at [this] in [m'] is a deep copy of [f], the object at
    [from] in [m]: the value fields are equal, the fingerprint values
    are equal, a null pointer is copied as a null pointer, a non-null
    one is copied into a cell that was not allocated in [m] (so it is
    not the source's cell), and the source is left as it was. *)
Definition deep_copy (m m' : Memory) (this from : addr)
    (f : TransportDescription) : Prop :=
  exists t',
    read this m' = Some t' /\
    same_fields t' f /\
    fingerprint_value m' t' = fingerprint_value m f /\
    (identity_fingerprint t' = None <-> identity_fingerprint f = None) /\
    (forall l, identity_fingerprint t' = Some l ->
       identity_fingerprint f <> Some l /\ fingerprints m !! l = None /\
       forall a td, a <> this -> read a m' = Some td ->
         identity_fingerprint td <> Some l) /\
    read from m' = Some f /\
    fingerprint_value m' f = fingerprint_value m f.

(** The cells left once the cell [old] pointed to, if any, is deleted. *)
Definition drop_cell (old : option loc) (fps : gmap positive SSLFingerprint)
    : gmap positive SSLFingerprint :=
  match old with
  | None => fps
  | Some o => delete o fps
  end.

(** What both copy operations do to the memory: the object at [this]
    becomes [t'], which has the value fields of [f] and a pointer to a
    new cell holding the fingerprint of [f] (or no pointer); the cell
    [old], which [this] pointed to before, is gone; every other object
    is as before. *)
Definition copy_outcome (m m' : Memory) (this : addr)
    (f : TransportDescription) (old : option loc)
    (t' : TransportDescription) : Prop :=
  read this m' = Some t' /\
  same_fields t' f /\
  (forall a, a <> this -> read a m' = read a m) /\
  match identity_fingerprint f with
  | None =>
      identity_fingerprint t' = None /\
      fingerprints m' = drop_cell old (fingerprints m)
  | Some l =>
      exists v, fingerprints m !! l = Some v /\
        identity_fingerprint t' = Some (fresh (dom (fingerprints m))) /\
        fingerprints m' =
          drop_cell old (<[fresh (dom (fingerprints m)) := v]> (fingerprints m))
  end.

End Transport.

Arguments TransportDescription : clear implicits.
Arguments Memory : clear implicits.

(** ** Construction and destruction *)

Section Lifecycle.

Context {SSLFingerprint OpaqueParameters : Type}.

(** The value a default-initialised [opaque_parameters] member has; its
    type is declared in the header. *)
Variable no_opaque_parameters : OpaqueParameters.

(** [TransportDescription()], building the object at [this]: the members
    without an initialiser are default-initialised (empty vector, empty
    strings, null pointer). *)
Definition TransportDescription_default (this : addr)
    (m : Memory SSLFingerprint OpaqueParameters)
    : Memory SSLFingerprint OpaqueParameters :=
  write this
    {| transport_options := [];
       ice_ufrag := "";
       ice_pwd := "";
       ice_mode := ICEMODE_FULL;
       connection_role := CONNECTIONROLE_NONE;
       identity_fingerprint := None;
       opaque_parameters := no_opaque_parameters |} m.

(** The six-argument constructor; [fingerprint] is the caller's pointer,
    possibly null. *)
Definition TransportDescription_full (this : addr)
    (options : list string) (ufrag_arg pwd_arg : string) (mode : IceMode)
    (role : ConnectionRole) (fingerprint : option loc)
    (m : Memory SSLFingerprint OpaqueParameters)
    : option (Memory SSLFingerprint OpaqueParameters) :=
  '(p, m1) ← CopyFingerprint fingerprint m;
  Some (write this
          {| transport_options := options;
             ice_ufrag := ufrag_arg;
             ice_pwd := pwd_arg;
             ice_mode := mode;
             connection_role := role;
             identity_fingerprint := p;
             opaque_parameters := no_opaque_parameters |} m1).

(** [TransportDescription(ice_ufrag, ice_pwd)]. *)
Definition TransportDescription_credentials (this : addr)
    (ufrag_arg pwd_arg : string) (m : Memory SSLFingerprint OpaqueParameters)
    : Memory SSLFingerprint OpaqueParameters :=
  write this
    {| transport_options := [];
       ice_ufrag := ufrag_arg;
       ice_pwd := pwd_arg;
       ice_mode := ICEMODE_FULL;
       connection_role := CONNECTIONROLE_NONE;
       identity_fingerprint := None;
       opaque_parameters := no_opaque_parameters |} m.

(** The defaulted destructor: the [unique_ptr] member deletes the cell it
    holds, then the object is gone. *)
Definition TransportDescription_destroy (this : addr)
    (m : Memory SSLFingerprint OpaqueParameters)
    : option (Memory SSLFingerprint OpaqueParameters) :=
  t ← read this m;
  m1 ← match identity_fingerprint t with
       | None => Some m
       | Some l => delete_fingerprint l m
       end;
  Some {| fingerprints := fingerprints m1;
          objects := delete this (objects m1) |}.

(** Every allocated cell is the fingerprint of some object: nothing has
    leaked. *)
Definition accounted (m : Memory SSLFingerprint OpaqueParameters) : Prop :=
  forall l, is_Some (fingerprints m !! l) ->
    exists a td, read a m = Some td /\ identity_fingerprint td = Some l.

(** The objects other than the one at [this], and the cells they own,
    are the same in [m] and [m']. *)
Definition others_kept (m m' : Memory SSLFingerprint OpaqueParameters)
    (this : addr) : Prop :=
  forall a td, a <> this -> read a m = Some td ->
    read a m' = Some td /\ fingerprint_value m' td = fingerprint_value m td.

End Lifecycle.

(** A small memory to run the copy operations on: the description at
    address 1 owns the fingerprint in cell 1, the one at address 2 has no
    fingerprint, address 3 is free. *)
Definition offer : TransportDescription (list (string * string)) :=
  {| transport_options := ["trickle"; "renomination"];
     ice_ufrag := "u+/9";
     ice_pwd := "0123456789abcdefghijkl";
     ice_mode := ICEMODE_LITE;
     connection_role := CONNECTIONROLE_ACTPASS;
     identity_fingerprint := Some 1%positive;
     opaque_parameters := [("protocol", "quic")] |}.

Definition blank : TransportDescription (list (string * string)) :=
  {| transport_options := [];
     ice_ufrag := "";
     ice_pwd := "";
     ice_mode := ICEMODE_FULL;
     connection_role := CONNECTIONROLE_NONE;
     identity_fingerprint := None;
     opaque_parameters := [] |}.

Definition two_descriptions : Memory string (list (string * string)) :=
  {| fingerprints := {[ 1%positive := "sha-256 4A:AD:B9:B1" ]};
     objects := <[ 1%positive := offer ]> {[ 2%positive := blank ]} |}.

(** The same with the description at address 1 alone. *)
Definition one_description : Memory string (list (string * string)) :=
  {| fingerprints := {[ 1%positive := "sha-256 4A:AD:B9:B1" ]};
     objects := {[ 1%positive := offer ]} |}.

(** * Properties *)

(** ** Characters *)

Lemma IsIceChar_existsb (c : ascii) :
  IsIceChar c = existsb (Ascii.eqb c) ice_alphabet.
Proof. destruct c as [[] [] [] [] [] [] [] []]; vm_compute; reflexivity. Qed.

(** [IsIceChar] accepts exactly the 64 characters of the alphabet. *)
Lemma IsIceChar_allowed (c : ascii) : IsIceChar c = true <-> allowed_char c.
Proof.
  rewrite IsIceChar_existsb, existsb_exists. unfold allowed_char. split.
  - intros (x & Hin & Heq). apply Ascii.eqb_eq in Heq. now subst.
  - intros Hin. exists c. split; [exact Hin | apply Ascii.eqb_refl].
Qed.

Lemma c_all_of_allowed (s : string) :
  c_all_of s IsIceChar = true <-> all_allowed s.
Proof.
  induction s as [|c rest IH]; simpl.
  - tauto.
  - rewrite andb_true_iff, IH, IsIceChar_allowed. tauto.
Qed.

Lemma c_all_of_not_allowed (s : string) :
  c_all_of s IsIceChar = false <-> ~ all_allowed s.
Proof.
  rewrite <- c_all_of_allowed. destruct (c_all_of s IsIceChar); split;
    congruence.
Qed.

(** ** The validators, case by case *)

Section CredentialFacts.

Variables umin umax pmin pmax : nat.

Lemma bounds_test (lo hi : nat) (s : string) :
  ((lo <=? String.length s)%nat && (String.length s <=? hi)%nat) = true
  <-> in_bounds lo hi s.
Proof.
  unfold in_bounds. rewrite andb_true_iff, !Nat.leb_le. tauto.
Qed.

Lemma bounds_test_false (lo hi : nat) (s : string) :
  ((lo <=? String.length s)%nat && (String.length s <=? hi)%nat) = false
  <-> ~ in_bounds lo hi s.
Proof.
  rewrite <- bounds_test.
  destruct ((lo <=? String.length s)%nat && (String.length s <=? hi)%nat);
    split; congruence.
Qed.

Lemma ParseIceUfrag_length (s : string) :
  ~ in_bounds umin umax s ->
  ParseIceUfrag umin umax s
  = Error (mkRTCError SYNTAX_ERROR (ufrag_length_message umin umax)).
Proof.
  intros H. apply bounds_test_false in H. unfold ParseIceUfrag.
  now rewrite H.
Qed.

Lemma ParseIceUfrag_chars (s : string) :
  in_bounds umin umax s -> ~ all_allowed s ->
  ParseIceUfrag umin umax s
  = Error (mkRTCError SYNTAX_ERROR ufrag_chars_message).
Proof.
  intros Hb Hc. apply bounds_test in Hb. apply c_all_of_not_allowed in Hc.
  unfold ParseIceUfrag. now rewrite Hb, Hc.
Qed.

Lemma ParseIceUfrag_value (s : string) :
  in_bounds umin umax s -> all_allowed s ->
  ParseIceUfrag umin umax s = Value s.
Proof.
  intros Hb Hc. apply bounds_test in Hb. apply c_all_of_allowed in Hc.
  unfold ParseIceUfrag. now rewrite Hb, Hc.
Qed.

Lemma ParseIceUfrag_inv (s r : string) :
  ParseIceUfrag umin umax s = Value r ->
  r = s /\ in_bounds umin umax s /\ all_allowed s.
Proof.
  unfold ParseIceUfrag.
  destruct ((umin <=? String.length s)%nat && (String.length s <=? umax)%nat)
    eqn:Hb; simpl; [|discriminate].
  destruct (c_all_of s IsIceChar) eqn:Hc; simpl; [|discriminate].
  intros [= <-]. apply bounds_test in Hb. apply c_all_of_allowed in Hc.
  auto.
Qed.

Lemma ParseIcePwd_length (s : string) :
  ~ in_bounds pmin pmax s ->
  ParseIcePwd pmin pmax s
  = Error (mkRTCError SYNTAX_ERROR (pwd_length_message pmin pmax)).
Proof.
  intros H. apply bounds_test_false in H. unfold ParseIcePwd.
  now rewrite H.
Qed.

Lemma ParseIcePwd_chars (s : string) :
  in_bounds pmin pmax s -> ~ all_allowed s ->
  ParseIcePwd pmin pmax s = Error (mkRTCError SYNTAX_ERROR pwd_chars_message).
Proof.
  intros Hb Hc. apply bounds_test in Hb. apply c_all_of_not_allowed in Hc.
  unfold ParseIcePwd. now rewrite Hb, Hc.
Qed.

Lemma ParseIcePwd_value (s : string) :
  in_bounds pmin pmax s -> all_allowed s -> ParseIcePwd pmin pmax s = Value s.
Proof.
  intros Hb Hc. apply bounds_test in Hb. apply c_all_of_allowed in Hc.
  unfold ParseIcePwd. now rewrite Hb, Hc.
Qed.

Lemma ParseIcePwd_inv (s r : string) :
  ParseIcePwd pmin pmax s = Value r ->
  r = s /\ in_bounds pmin pmax s /\ all_allowed s.
Proof.
  unfold ParseIcePwd.
  destruct ((pmin <=? String.length s)%nat && (String.length s <=? pmax)%nat)
    eqn:Hb; simpl; [|discriminate].
  destruct (c_all_of s IsIceChar) eqn:Hc; simpl; [|discriminate].
  intros [= <-]. apply bounds_test in Hb. apply c_all_of_allowed in Hc.
  auto.
Qed.

(** Past the legacy test, [Parse] is the two validators in sequence. *)
Lemma Parse_not_both_empty (u p : string) :
  u <> "" \/ p <> "" ->
  Parse umin umax pmin pmax u p =
  match ParseIceUfrag umin umax u with
  | Error e => Error e
  | Value u' =>
      match ParseIcePwd pmin pmax p with
      | Error e => Error e
      | Value p' => Value {| ufrag := u'; pwd := p' |}
      end
  end.
Proof.
  intros H. unfold Parse.
  destruct u, p; simpl; try reflexivity. destruct H; congruence.
Qed.

End CredentialFacts.

(** ** Claims about the credential validators *)

(** C1: a successful [IceParameters::Parse] returns either the all-empty
    value or two non-empty strings that each pass their length and
    character rules; exactly one empty field is never returned, and
    [Parse("", p)] fails for every non-empty [p].  The minimum lengths are
    constants of another file: the statement needs both to be positive, as
    the specification assumes ("empty violates the ufrag minimum
    length"). *)
Theorem Parse_empty_or_validated (umin umax pmin pmax : nat)
    (Hu : 0 < umin) (Hp : 0 < pmin) :
  (forall u p r, Parse umin umax pmin pmax u p = Value r ->
     (ufrag r = "" /\ pwd r = "") \/
     (ufrag r <> "" /\ pwd r <> "" /\
      validated umin umax (ufrag r) /\ validated pmin pmax (pwd r))) /\
  (forall p, p <> "" -> ok (Parse umin umax pmin pmax "" p) = false).
Proof.
  split.
  - intros u p r. unfold Parse.
    destruct (empty u && empty p) eqn:He.
    + intros [= <-]. left. split; reflexivity.
    + destruct (ParseIceUfrag umin umax u) as [u'|e] eqn:Hpu; [|discriminate].
      destruct (ParseIcePwd pmin pmax p) as [p'|e] eqn:Hpp; [|discriminate].
      intros [= <-]. simpl.
      apply ParseIceUfrag_inv in Hpu as (-> & Hbu & Hcu).
      apply ParseIcePwd_inv in Hpp as (-> & Hbp & Hcp).
      right. unfold validated.
      split; [|split; [|split; [split|split]; assumption]].
      * intros ->. unfold in_bounds in Hbu. simpl in Hbu. lia.
      * intros ->. unfold in_bounds in Hbp. simpl in Hbp. lia.
  - intros p Hne. rewrite Parse_not_both_empty by (right; exact Hne).
    rewrite ParseIceUfrag_length; [reflexivity|].
    unfold in_bounds. simpl. lia.
Qed.

Lemma Parse_empty_or_validated_witness :
  0 < 4 /\ 0 < 22 /\
  ok (Parse 4 256 22 256 "" "validpwdvalidpwd") = false /\
  ok (Parse 4 256 22 256 "" "validpwdvalidpwdvalidpwd") = false.
Proof.
  split; [lia|]. split; [lia|].
  split;
    apply (proj2 (Parse_empty_or_validated 4 256 22 256
                    ltac:(lia) ltac:(lia))); discriminate.
Defined.

(** C2: within the bound pair, [ParseIceUfrag] (resp. [ParseIcePwd])
    succeeds exactly when every character is an ASCII letter, a digit,
    '+' or '/'; a success returns the input unchanged and a failure is a
    SYNTAX_ERROR. *)
Theorem Parse_field_in_bounds (umin umax pmin pmax : nat) (su sp : string)
    (Hu : in_bounds umin umax su) (Hp : in_bounds pmin pmax sp) :
  ((ok (ParseIceUfrag umin umax su) = true <-> all_allowed su) /\
   (forall r, ParseIceUfrag umin umax su = Value r -> r = su) /\
   (forall e, ParseIceUfrag umin umax su = Error e ->
      error_type e = SYNTAX_ERROR)) /\
  ((ok (ParseIcePwd pmin pmax sp) = true <-> all_allowed sp) /\
   (forall r, ParseIcePwd pmin pmax sp = Value r -> r = sp) /\
   (forall e, ParseIcePwd pmin pmax sp = Error e ->
      error_type e = SYNTAX_ERROR)).
Proof.
  split.
  - destruct (c_all_of su IsIceChar) eqn:Hc.
    + apply c_all_of_allowed in Hc.
      rewrite (ParseIceUfrag_value _ _ _ Hu Hc). simpl.
      repeat split; auto; congruence.
    + apply c_all_of_not_allowed in Hc.
      rewrite (ParseIceUfrag_chars _ _ _ Hu Hc). simpl.
      repeat split; try congruence; try tauto.
      intros e [= <-]. reflexivity.
  - destruct (c_all_of sp IsIceChar) eqn:Hc.
    + apply c_all_of_allowed in Hc.
      rewrite (ParseIcePwd_value _ _ _ Hp Hc). simpl.
      repeat split; auto; congruence.
    + apply c_all_of_not_allowed in Hc.
      rewrite (ParseIcePwd_chars _ _ _ Hp Hc). simpl.
      repeat split; try congruence; try tauto.
      intros e [= <-]. reflexivity.
Qed.

Lemma Parse_field_in_bounds_witness :
  in_bounds 4 256 "u+/9" /\ in_bounds 22 256 "0123456789abcdefghijkl?" /\
  ok (ParseIceUfrag 4 256 "u+/9") = true /\
  (forall e, ParseIcePwd 22 256 "0123456789abcdefghijkl?" = Error e ->
     error_type e = SYNTAX_ERROR).
Proof.
  assert (Hu : in_bounds 4 256 "u+/9") by (unfold in_bounds; simpl; lia).
  assert (Hp : in_bounds 22 256 "0123456789abcdefghijkl?")
    by (unfold in_bounds; simpl; lia).
  destruct (Parse_field_in_bounds 4 256 22 256 _ _ Hu Hp)
    as [[Hiff _] [_ [_ Herr]]].
  split; [exact Hu|]. split; [exact Hp|]. split; [|exact Herr].
  apply Hiff, c_all_of_allowed. reflexivity.
Defined.

(** C3: outside the bound pair, [ParseIceUfrag] (resp. [ParseIcePwd])
    fails with a SYNTAX_ERROR whose message names the field and both
    bounds, whatever the characters of the string: the length test comes
    first, so the message is the length message and not the character
    message. *)
Theorem Parse_field_out_of_bounds (umin umax pmin pmax : nat) (su sp : string)
    (Hu : ~ in_bounds umin umax su) (Hp : ~ in_bounds pmin pmax sp) :
  (ParseIceUfrag umin umax su =
     Error (mkRTCError SYNTAX_ERROR
              ("ICE ufrag must be between " ++ dec umin ++ " and "
                 ++ dec umax ++ " characters long.")) /\
   ufrag_length_message umin umax <> ufrag_chars_message) /\
  (ParseIcePwd pmin pmax sp =
     Error (mkRTCError SYNTAX_ERROR
              ("ICE pwd must be between " ++ dec pmin ++ " and "
                 ++ dec pmax ++ " characters long.")) /\
   pwd_length_message pmin pmax <> pwd_chars_message).
Proof.
  split; split.
  - exact (ParseIceUfrag_length umin umax su Hu).
  - unfold ufrag_length_message, ufrag_chars_message. simpl. discriminate.
  - exact (ParseIcePwd_length pmin pmax sp Hp).
  - unfold pwd_length_message, pwd_chars_message. simpl. discriminate.
Qed.

Lemma Parse_field_out_of_bounds_witness :
  ~ in_bounds 4 256 "a!" /\ ~ in_bounds 22 256 "short pwd?" /\
  ParseIceUfrag 4 256 "a!" =
    Error (mkRTCError SYNTAX_ERROR
             "ICE ufrag must be between 4 and 256 characters long.") /\
  ParseIcePwd 22 256 "short pwd?" =
    Error (mkRTCError SYNTAX_ERROR
             "ICE pwd must be between 22 and 256 characters long.").
Proof.
  assert (Hu : ~ in_bounds 4 256 "a!") by (unfold in_bounds; simpl; lia).
  assert (Hp : ~ in_bounds 22 256 "short pwd?")
    by (unfold in_bounds; simpl; lia).
  destruct (Parse_field_out_of_bounds 4 256 22 256 _ _ Hu Hp)
    as [[H1 _] [H2 _]].
  split; [exact Hu|]. split; [exact Hp|]. split; [exact H1 | exact H2].
Defined.

(** C4: [Parse("", "")] succeeds with both fields empty, whatever the
    bounds are, so also when the validators reject the empty string (they
    do as soon as the minimum length is positive): validation is bypassed.
    The bypass applies exactly when both inputs are empty: for any other
    pair of inputs the result is the one the two validators give, so
    [Parse] succeeds only if both strings are validated; and the all-empty
    value is returned for no other input. *)
Theorem Parse_legacy_empty (umin umax pmin pmax : nat) :
  Parse umin umax pmin pmax "" "" = Value IceParameters_default /\
  ufrag IceParameters_default = "" /\ pwd IceParameters_default = "" /\
  (forall u p, Parse umin umax pmin pmax u p = Value IceParameters_default
               <-> (u = "" /\ p = "")) /\
  (0 < umin ->
   ParseIceUfrag umin umax ""
   = Error (mkRTCError SYNTAX_ERROR (ufrag_length_message umin umax))) /\
  (0 < pmin ->
   ParseIcePwd pmin pmax ""
   = Error (mkRTCError SYNTAX_ERROR (pwd_length_message pmin pmax))) /\
  (forall u p, u <> "" \/ p <> "" ->
     Parse umin umax pmin pmax u p =
       match ParseIceUfrag umin umax u with
       | Error e => Error e
       | Value u' =>
           match ParseIcePwd pmin pmax p with
           | Error e => Error e
           | Value p' => Value {| ufrag := u'; pwd := p' |}
           end
       end /\
     (ok (Parse umin umax pmin pmax u p) = true <->
      validated umin umax u /\ validated pmin pmax p)).
Proof.
  split; [reflexivity|]. split; [reflexivity|]. split; [reflexivity|].
  split; [|split; [|split]].
  - intros u p. split.
    + intros H. destruct u as [|a u]; destruct p as [|b p]; auto;
        rewrite Parse_not_both_empty in H
          by (first [left; discriminate | right; discriminate]);
        destruct (ParseIceUfrag umin umax _) as [u'|e] eqn:Hpu;
        try discriminate;
        destruct (ParseIcePwd pmin pmax _) as [p'|e] eqn:Hpp;
        try discriminate;
        apply ParseIceUfrag_inv in Hpu as (-> & _);
        apply ParseIcePwd_inv in Hpp as (-> & _);
        discriminate.
    + intros [-> ->]. reflexivity.
  - intros Hu. apply ParseIceUfrag_length. unfold in_bounds. simpl. lia.
  - intros Hp. apply ParseIcePwd_length. unfold in_bounds. simpl. lia.
  - intros u p Hne. split; [now apply Parse_not_both_empty|].
    rewrite Parse_not_both_empty by exact Hne. unfold validated. split.
    + destruct (ParseIceUfrag umin umax u) as [u'|e] eqn:Hpu; [|discriminate].
      destruct (ParseIcePwd pmin pmax p) as [p'|e] eqn:Hpp; [|discriminate].
      intros _.
      apply ParseIceUfrag_inv in Hpu as (_ & Hbu & Hcu).
      apply ParseIcePwd_inv in Hpp as (_ & Hbp & Hcp). auto.
    + intros [[Hbu Hcu] [Hbp Hcp]].
      rewrite (ParseIceUfrag_value _ _ _ Hbu Hcu).
      rewrite (ParseIcePwd_value _ _ _ Hbp Hcp). reflexivity.
Qed.

Lemma Parse_legacy_empty_witness :
  Parse 4 256 22 256 "" "" = Value IceParameters_default /\
  0 < 4 /\
  ParseIceUfrag 4 256 ""
  = Error (mkRTCError SYNTAX_ERROR
             "ICE ufrag must be between 4 and 256 characters long.") /\
  0 < 22 /\
  ParseIcePwd 22 256 ""
  = Error (mkRTCError SYNTAX_ERROR
             "ICE pwd must be between 22 and 256 characters long.") /\
  ("" <> "" \/ "0123456789abcdefghijkl" <> "") /\
  Parse 4 256 22 256 "" "0123456789abcdefghijkl"
  = Error (mkRTCError SYNTAX_ERROR
             "ICE ufrag must be between 4 and 256 characters long.").
Proof.
  destruct (Parse_legacy_empty 4 256 22 256)
    as (Hempty & _ & _ & _ & Hu & Hp & Hrest).
  assert (Hne : "" <> "" \/ "0123456789abcdefghijkl" <> "")
    by (right; discriminate).
  split; [exact Hempty|]. split; [lia|].
  split; [exact (Hu ltac:(lia))|]. split; [lia|].
  split; [exact (Hp ltac:(lia))|]. split; [exact Hne|].
  exact (proj1 (Hrest "" "0123456789abcdefghijkl" Hne)).
Defined.

(** C5: for inputs that are not both empty, [Parse] returns the ufrag
    error when the ufrag is invalid, whatever the pwd is (the pwd is not
    looked at); the pwd error when the ufrag is valid and the pwd is not;
    and otherwise the value holding the two validated strings, which are
    the inputs. *)
Theorem Parse_sequence (umin umax pmin pmax : nat) (u p : string)
    (Hne : u <> "" \/ p <> "") :
  (forall e, ParseIceUfrag umin umax u = Error e ->
     Parse umin umax pmin pmax u p = Error e /\
     forall p', u <> "" \/ p' <> "" ->
       Parse umin umax pmin pmax u p' = Error e) /\
  (forall u' e, ParseIceUfrag umin umax u = Value u' ->
     ParseIcePwd pmin pmax p = Error e ->
     Parse umin umax pmin pmax u p = Error e) /\
  (forall u' p', ParseIceUfrag umin umax u = Value u' ->
     ParseIcePwd pmin pmax p = Value p' ->
     Parse umin umax pmin pmax u p = Value {| ufrag := u'; pwd := p' |} /\
     u' = u /\ p' = p).
Proof.
  split; [|split].
  - intros e He. split.
    + rewrite Parse_not_both_empty by exact Hne. now rewrite He.
    + intros p' Hne'. rewrite Parse_not_both_empty by exact Hne'.
      now rewrite He.
  - intros u' e Hu He. rewrite Parse_not_both_empty by exact Hne.
    now rewrite Hu, He.
  - intros u' p' Hu Hp. rewrite Parse_not_both_empty by exact Hne.
    rewrite Hu, Hp. split; [reflexivity|].
    apply ParseIceUfrag_inv in Hu as (-> & _).
    apply ParseIcePwd_inv in Hp as (-> & _). split; reflexivity.
Qed.

Lemma Parse_sequence_witness :
  ("a!" <> "" \/ "?" <> "") /\
  Parse 4 256 22 256 "a!" "?" =
    Error (mkRTCError SYNTAX_ERROR
             "ICE ufrag must be between 4 and 256 characters long.").
Proof.
  assert (Hne : "a!" <> "" \/ "?" <> "") by (left; discriminate).
  split; [exact Hne|].
  destruct (Parse_sequence 4 256 22 256 "a!" "?" Hne) as [H _].
  exact (proj1 (H _ eq_refl)).
Defined.

(** ** Comparison up to letter case *)

Lemma EqualsIgnoreCase_lowered (a b : string) :
  EqualsIgnoreCase a b = true <-> lowered a = lowered b.
Proof.
  revert b. induction a as [|x a IH]; intros [|y b]; simpl;
    try (split; congruence).
  rewrite andb_true_iff, Ascii.eqb_eq, IH. split.
  - intros [-> ->]. reflexivity.
  - intros [= -> ->]. auto.
Qed.

Lemma EqualsIgnoreCase_refl (a : string) : EqualsIgnoreCase a a = true.
Proof. now apply EqualsIgnoreCase_lowered. Qed.

(** Two words that both match [s] match each other. *)
Lemma EqualsIgnoreCase_other (a b s : string) :
  EqualsIgnoreCase a b = false -> EqualsIgnoreCase b s = true ->
  EqualsIgnoreCase a s = false.
Proof.
  intros Hab Hbs. destruct (EqualsIgnoreCase a s) eqn:Has; [|reflexivity].
  apply EqualsIgnoreCase_lowered in Hbs, Has.
  assert (EqualsIgnoreCase a b = true) as Habt
    by (apply EqualsIgnoreCase_lowered; congruence).
  congruence.
Qed.

Lemma tolower_toupper (a : ascii) :
  ascii_tolower (ascii_toupper a) = ascii_tolower a.
Proof. destruct a as [[] [] [] [] [] [] [] []]; vm_compute; reflexivity. Qed.

Lemma tolower_tolower (a : ascii) :
  ascii_tolower (ascii_tolower a) = ascii_tolower a.
Proof. destruct a as [[] [] [] [] [] [] [] []]; vm_compute; reflexivity. Qed.

Lemma case_variant_char_lower (a b : ascii) :
  case_variant_char a b -> ascii_tolower a = ascii_tolower b.
Proof.
  intros [-> | [-> | ->]];
    [reflexivity | now rewrite tolower_toupper | now rewrite tolower_tolower].
Qed.

Lemma case_variant_EqualsIgnoreCase (token s : string) :
  case_variant token s -> EqualsIgnoreCase token s = true.
Proof.
  revert s. induction token as [|a r IH]; intros [|b s]; simpl; try tauto.
  intros [Hc Hr]. rewrite (case_variant_char_lower _ _ Hc), Ascii.eqb_refl.
  simpl. now apply IH.
Qed.

(** ** Claims about the connection roles *)

Section RoleFacts.

Variables A P AP H : string.

Lemma scan_roles_false (rest : list string) (i : nat) (s : string)
    (r0 : ConnectionRole) :
  fst (scan_roles rest i s r0) = false -> snd (scan_roles rest i s r0) = r0.
Proof.
  revert i. induction rest as [|t rest IH]; intros i; simpl.
  - reflexivity.
  - destruct (EqualsIgnoreCase t s); simpl; [discriminate | apply IH].
Qed.

(** A string that matches a role's token is resolved to that role. *)
Lemma StringToConnectionRole_match (role : ConnectionRole) (s : string)
    (r0 : ConnectionRole) :
  tokens_distinct A P AP H -> named_role role ->
  EqualsIgnoreCase (token_of A P AP H role) s = true ->
  StringToConnectionRole A P AP H s r0 = (true, role).
Proof.
  intros (Hap & Haa & Hah & Hpa & Hph & Hach) Hr Hm.
  unfold StringToConnectionRole, roles, scan_roles.
  destruct Hr as [-> | [-> | [-> | ->]]].
  - change (EqualsIgnoreCase A s = true) in Hm. now rewrite Hm.
  - change (EqualsIgnoreCase P s = true) in Hm.
    now rewrite (EqualsIgnoreCase_other _ _ _ Hap Hm), Hm.
  - change (EqualsIgnoreCase AP s = true) in Hm.
    now rewrite (EqualsIgnoreCase_other _ _ _ Haa Hm),
      (EqualsIgnoreCase_other _ _ _ Hpa Hm), Hm.
  - change (EqualsIgnoreCase H s = true) in Hm.
    now rewrite (EqualsIgnoreCase_other _ _ _ Hah Hm),
      (EqualsIgnoreCase_other _ _ _ Hph Hm),
      (EqualsIgnoreCase_other _ _ _ Hach Hm), Hm.
Qed.

Lemma ConnectionRoleToString_named (role : ConnectionRole) (out : string) :
  named_role role ->
  ConnectionRoleToString A P AP H role out = (true, token_of A P AP H role).
Proof. intros [-> | [-> | [-> | ->]]]; reflexivity. Qed.

Lemma ConnectionRoleToString_other (role : ConnectionRole) (out : string) :
  ~ named_role role ->
  ConnectionRoleToString A P AP H role out = (false, out).
Proof.
  intros Hn. unfold ConnectionRoleToString.
  destruct (Z.eqb_spec role CONNECTIONROLE_ACTIVE) as [->|_];
    [exfalso; apply Hn; unfold named_role; auto|].
  destruct (Z.eqb_spec role CONNECTIONROLE_ACTPASS) as [->|_];
    [exfalso; apply Hn; unfold named_role; auto|].
  destruct (Z.eqb_spec role CONNECTIONROLE_PASSIVE) as [->|_];
    [exfalso; apply Hn; unfold named_role; auto|].
  destruct (Z.eqb_spec role CONNECTIONROLE_HOLDCONN) as [->|_];
    [exfalso; apply Hn; unfold named_role; auto|].
  reflexivity.
Qed.

Lemma named_role_dec (role : ConnectionRole) :
  named_role role \/ ~ named_role role.
Proof.
  unfold named_role, CONNECTIONROLE_ACTIVE, CONNECTIONROLE_PASSIVE,
    CONNECTIONROLE_ACTPASS, CONNECTIONROLE_HOLDCONN.
  destruct (Z.eq_dec role 1%Z); [auto|].
  destruct (Z.eq_dec role 2%Z); [auto|].
  destruct (Z.eq_dec role 3%Z); [auto|].
  destruct (Z.eq_dec role 4%Z); [auto|].
  right. intros [?|[?|[?|?]]]; contradiction.
Qed.

End RoleFacts.

(** C6: for each of the four named roles, [ConnectionRoleToString] succeeds
    with the role's token, and [StringToConnectionRole] on that token, in
    any letter case, succeeds with the same role.  The tokens are constants
    of another file; they have to be four different words up to case. *)
Theorem role_round_trip (A P AP H : string) (role : ConnectionRole)
    (Hd : tokens_distinct A P AP H) (Hr : named_role role) :
  (forall out,
     ConnectionRoleToString A P AP H role out
     = (true, token_of A P AP H role)) /\
  (forall s r0, case_variant (token_of A P AP H role) s ->
     StringToConnectionRole A P AP H s r0 = (true, role)) /\
  (forall out r0,
     StringToConnectionRole A P AP H
       (snd (ConnectionRoleToString A P AP H role out)) r0 = (true, role)).
Proof.
  split; [|split].
  - intros out. now apply ConnectionRoleToString_named.
  - intros s r0 Hv. apply StringToConnectionRole_match; try assumption.
    now apply case_variant_EqualsIgnoreCase.
  - intros out r0. rewrite ConnectionRoleToString_named by assumption. simpl.
    apply StringToConnectionRole_match; try assumption.
    apply EqualsIgnoreCase_refl.
Qed.

Lemma role_round_trip_witness :
  tokens_distinct "active" "passive" "actpass" "holdconn" /\
  named_role CONNECTIONROLE_ACTIVE /\
  ConnectionRoleToString "active" "passive" "actpass" "holdconn"
    CONNECTIONROLE_ACTIVE "" = (true, "active") /\
  StringToConnectionRole "active" "passive" "actpass" "holdconn" "ACTIVE"
    CONNECTIONROLE_NONE = (true, CONNECTIONROLE_ACTIVE) /\
  StringToConnectionRole "active" "passive" "actpass" "holdconn" "Active"
    CONNECTIONROLE_NONE = (true, CONNECTIONROLE_ACTIVE) /\
  StringToConnectionRole "active" "passive" "actpass" "holdconn" "active"
    CONNECTIONROLE_NONE = (true, CONNECTIONROLE_ACTIVE).
Proof.
  assert (Hd : tokens_distinct "active" "passive" "actpass" "holdconn")
    by (repeat split).
  assert (Hr : named_role CONNECTIONROLE_ACTIVE) by (left; reflexivity).
  destruct (role_round_trip _ _ _ _ _ Hd Hr) as (H1 & H2 & _).
  split; [exact Hd|]. split; [exact Hr|]. split; [apply H1|].
  split; [|split]; apply H2; simpl; unfold case_variant_char;
    repeat split; auto.
Defined.

(** C8: [ConnectionRoleToString] fails on [CONNECTIONROLE_NONE] and on
    every value that is none of the four named roles, and succeeds on
    exactly those four. *)
Theorem ConnectionRoleToString_success (A P AP H : string)
    (role : ConnectionRole) (out : string) :
  fst (ConnectionRoleToString A P AP H CONNECTIONROLE_NONE out) = false /\
  (fst (ConnectionRoleToString A P AP H role out) = true <-> named_role role) /\
  (fst (ConnectionRoleToString A P AP H role out) = false
   <-> ~ named_role role).
Proof.
  split; [reflexivity|].
  destruct (named_role_dec role) as [Hr|Hr].
  - rewrite (ConnectionRoleToString_named A P AP H role out Hr). simpl.
    split; split; try tauto; try discriminate.
  - rewrite (ConnectionRoleToString_other A P AP H role out Hr). simpl.
    split; split; try tauto; try discriminate.
Qed.

(** C10: a failing [StringToConnectionRole] leaves [*role] as it was, and
    a failing [ConnectionRoleToString] leaves [*role_str] as it was. *)
Theorem out_parameter_kept_on_failure (A P AP H : string)
    (s : string) (r0 : ConnectionRole) (role : ConnectionRole) (out : string)
    (Hs : fst (StringToConnectionRole A P AP H s r0) = false)
    (Hr : fst (ConnectionRoleToString A P AP H role out) = false) :
  snd (StringToConnectionRole A P AP H s r0) = r0 /\
  snd (ConnectionRoleToString A P AP H role out) = out.
Proof.
  split.
  - now apply scan_roles_false.
  - destruct (named_role_dec role) as [Hn|Hn].
    + rewrite (ConnectionRoleToString_named A P AP H role out Hn) in Hr.
      discriminate.
    + now rewrite (ConnectionRoleToString_other A P AP H role out Hn).
Qed.

Lemma out_parameter_kept_on_failure_witness :
  fst (StringToConnectionRole "active" "passive" "actpass" "holdconn"
         "server" CONNECTIONROLE_PASSIVE) = false /\
  fst (ConnectionRoleToString "active" "passive" "actpass" "holdconn"
         CONNECTIONROLE_NONE "kept") = false /\
  snd (StringToConnectionRole "active" "passive" "actpass" "holdconn"
         "server" CONNECTIONROLE_PASSIVE) = CONNECTIONROLE_PASSIVE /\
  snd (ConnectionRoleToString "active" "passive" "actpass" "holdconn"
         CONNECTIONROLE_NONE "kept") = "kept".
Proof.
  split; [reflexivity|]. split; [reflexivity|].
  exact (out_parameter_kept_on_failure "active" "passive" "actpass" "holdconn"
           "server" CONNECTIONROLE_PASSIVE CONNECTIONROLE_NONE "kept"
           eq_refl eq_refl).
Defined.

(** ** Claims about copying a transport description *)

Section TransportFacts.

Context {SSLFingerprint OpaqueParameters : Type}.
Implicit Types m : Memory SSLFingerprint OpaqueParameters.
Implicit Types f t td : TransportDescription OpaqueParameters.

Lemma read_write_eq a td m : read a (write a td m) = Some td.
Proof. unfold read, write. simpl. apply lookup_insert_eq. Qed.

Lemma read_write_ne a b td m : a <> b -> read b (write a td m) = read b m.
Proof. intros Hne. unfold read, write. simpl. now apply lookup_insert_ne. Qed.

Lemma assign_field_spec {V : Type}
    (set : V -> TransportDescription OpaqueParameters ->
           TransportDescription OpaqueParameters)
    (get : TransportDescription OpaqueParameters -> V) this from m f t :
  read from m = Some f -> read this m = Some t ->
  assign_field set get this from m = Some (write this (set (get f) t) m).
Proof. intros Hf Ht. unfold assign_field. now rewrite Hf, Ht. Qed.

Lemma fresh_cell m : fingerprints m !! fresh (dom (fingerprints m)) = None.
Proof. apply not_elem_of_dom, is_fresh. Qed.


Lemma drop_cell_lookup (old : option positive)
    (fps : gmap positive SSLFingerprint) (l : positive) :
  old <> Some l -> drop_cell old fps !! l = fps !! l.
Proof.
  intros Hne. destruct old as [o|]; simpl; [|reflexivity].
  apply lookup_delete_ne. congruence.
Qed.

(** A memory reached as [copy_outcome] describes holds a deep copy and
    keeps every cell exclusively owned. *)
Lemma copy_outcome_deep m m' this from f old t' :
  owned m -> read from m = Some f -> this <> from ->
  (forall o, old = Some o -> is_Some (fingerprints m !! o)) ->
  (forall o, old = Some o ->
     forall a td, a <> this -> read a m = Some td ->
       identity_fingerprint td <> Some o) ->
  copy_outcome m m' this f old t' ->
  deep_copy m m' this from f /\ owned m'.
Proof.
  intros [Hal Hex] Hf Hne Halloc Hold (Ht' & Hsame & Hothers & Hfp).
  pose proof (fresh_cell m) as Hfresh.
  set (l' := fresh (dom (fingerprints m))) in *.
  assert (Hfrom : read from m' = Some f) by (rewrite Hothers; auto).
  assert (Hol' : old <> Some l').
  { intros ->. destruct (Halloc l' eq_refl) as [x Hx]. congruence. }
  assert (Hkept : forall a td l, a <> this -> read a m = Some td ->
            identity_fingerprint td = Some l ->
            fingerprints m' !! l = fingerprints m !! l /\ l <> l').
  { intros a td l Ha Hr Hl.
    assert (Hol : old <> Some l).
    { intros ->. exact (Hold l eq_refl a td Ha Hr Hl). }
    assert (Hl' : l <> l').
    { intros ->. destruct (Hal a td l' Hr Hl) as [x Hx]. congruence. }
    split; [|exact Hl'].
    destruct (identity_fingerprint f) as [lf|].
    - destruct Hfp as (v & _ & _ & ->).
      rewrite drop_cell_lookup by exact Hol. now apply lookup_insert_ne.
    - destruct Hfp as (_ & ->). now apply drop_cell_lookup. }
  assert (Hnew : forall l, identity_fingerprint t' = Some l ->
            l = l' /\ is_Some (fingerprints m' !! l)).
  { intros l Hl. destruct (identity_fingerprint f) as [lf|].
    - destruct Hfp as (v & Hv & Hp & ->).
      assert (l = l') as -> by congruence. split; [reflexivity|].
      rewrite drop_cell_lookup by exact Hol'. rewrite lookup_insert_eq.
      eauto.
    - destruct Hfp as (Hp & _). congruence. }
  split.
  - exists t'. split; [exact Ht'|]. split; [exact Hsame|].
    split; [|split; [|split; [|split; [exact Hfrom|]]]].
    + unfold fingerprint_value.
      destruct (identity_fingerprint f) as [lf|].
      * destruct Hfp as (v & Hv & -> & ->).
        rewrite drop_cell_lookup by exact Hol'.
        rewrite lookup_insert_eq. now rewrite Hv.
      * destruct Hfp as (-> & _). reflexivity.
    + destruct (identity_fingerprint f) as [lf|].
      * destruct Hfp as (v & _ & -> & _). split; discriminate.
      * destruct Hfp as (-> & _). tauto.
    + intros l Hl. destruct (Hnew l Hl) as [-> _].
      split; [|split; [exact Hfresh|]].
      * intros Hfl. destruct (Hkept from f l' (not_eq_sym Hne) Hf Hfl).
        congruence.
      * intros a td Ha Hr Htd. rewrite Hothers in Hr by exact Ha.
        destruct (Hkept a td l' Ha Hr Htd). congruence.
    + unfold fingerprint_value.
      destruct (identity_fingerprint f) as [lf|] eqn:Hlf; [|reflexivity].
      exact (proj1 (Hkept from f lf (not_eq_sym Hne) Hf Hlf)).
  - split.
    + intros a td l Ha Hl. destruct (decide (a = this)) as [->|Hat].
      * change (read this m' = Some td) in Ha.
        assert (td = t') as -> by congruence.
        exact (proj2 (Hnew l Hl)).
      * change (read a m' = Some td) in Ha. rewrite Hothers in Ha by exact Hat.
        rewrite (proj1 (Hkept a td l Hat Ha Hl)). exact (Hal a td l Ha Hl).
    + intros a b ta tb l Ha Hb Hla Hlb.
      change (read a m' = Some ta) in Ha. change (read b m' = Some tb) in Hb.
      destruct (decide (a = this)) as [->|Hat];
        destruct (decide (b = this)) as [->|Hbt]; [reflexivity| | |].
      * assert (ta = t') as -> by congruence.
        destruct (Hnew l Hla) as [-> _]. rewrite Hothers in Hb by exact Hbt.
        destruct (Hkept b tb l' Hbt Hb Hlb). congruence.
      * assert (tb = t') as -> by congruence.
        destruct (Hnew l Hlb) as [-> _]. rewrite Hothers in Ha by exact Hat.
        destruct (Hkept a ta l' Hat Ha Hla). congruence.
      * rewrite Hothers in Ha by exact Hat. rewrite Hothers in Hb by exact Hbt.
        exact (Hex a b ta tb l Ha Hb Hla Hlb).
Qed.

Lemma copy_constructor_outcome this from m f :
  owned m -> read from m = Some f ->
  exists m' t', TransportDescription_copy this from m = Some m' /\
                copy_outcome m m' this f None t'.
Proof.
  intros [Hal _] Hf. unfold TransportDescription_copy. rewrite Hf. simpl.
  unfold copy_outcome.
  destruct (identity_fingerprint f) as [l|] eqn:Hl.
  - destruct (Hal from f l Hf Hl) as [v Hv].
    unfold CopyFingerprint. rewrite Hv. simpl.
    eexists. eexists. split; [reflexivity|].
    split; [apply read_write_eq|]. split; [repeat split|].
    split; [intros a Ha; rewrite read_write_ne by done; reflexivity|].
    exists v. split; [reflexivity|]. split; reflexivity.
  - simpl. eexists. eexists. split; [reflexivity|].
    split; [apply read_write_eq|]. split; [repeat split|].
    split; [intros a Ha; rewrite read_write_ne by done; reflexivity|].
    split; reflexivity.
Qed.

Ltac assign_step Hf :=
  erewrite assign_field_spec;
  [ simpl
  | rewrite ?read_write_ne by done; exact Hf
  | first [apply read_write_eq | eassumption] ].

Ltac finish_assignment Hf Ho :=
  erewrite assign_field_spec;
  [ | unfold read; simpl; rewrite lookup_insert_ne by done; exact Hf
    | unfold read; simpl; apply lookup_insert_eq ];
  eexists; eexists; (split; [reflexivity|]);
  (split; [unfold write; simpl; rewrite lookup_insert_eq; reflexivity|]);
  (split; [intros a Ha; unfold read, write; simpl;
           rewrite !lookup_insert_ne by done; reflexivity|]).

(** The second half of [operator=]: the fingerprint is copied, the
    pointer of [this] is reset and the opaque parameters are assigned. *)
Lemma assignment_tail this from m f t :
  read from m = Some f -> read this m = Some t -> this <> from ->
  (forall l, identity_fingerprint f = Some l ->
     is_Some (fingerprints m !! l)) ->
  (forall o, identity_fingerprint t = Some o ->
     is_Some (fingerprints m !! o)) ->
  exists m' p,
    ('(p, m6) ← CopyFingerprint (identity_fingerprint f) m;
     m7 ← reset_identity_fingerprint p this m6;
     assign_field set_opaque_parameters opaque_parameters this from m7)
    = Some m' /\
    read this m' =
      Some (set_opaque_parameters (opaque_parameters f)
              (set_identity_fingerprint p t)) /\
    (forall a, a <> this -> read a m' = read a m) /\
    match identity_fingerprint f with
    | None =>
        p = None /\
        fingerprints m' = drop_cell (identity_fingerprint t) (fingerprints m)
    | Some l =>
        exists v, fingerprints m !! l = Some v /\
          p = Some (fresh (dom (fingerprints m))) /\
          fingerprints m' =
            drop_cell (identity_fingerprint t)
              (<[fresh (dom (fingerprints m)) := v]> (fingerprints m))
    end.
Proof.
  intros Hf Ht Hne Hfa Hta.
  pose proof (fresh_cell m) as Hfresh.
  unfold read in Hf, Ht.
  destruct (identity_fingerprint f) as [l|] eqn:Hl.
  - destruct (Hfa l eq_refl) as [v Hv].
    unfold CopyFingerprint, new_fingerprint. rewrite Hv. simpl.
    unfold reset_identity_fingerprint, read. simpl. rewrite Ht. simpl.
    destruct (identity_fingerprint t) as [o|] eqn:Ho.
    + destruct (Hta o eq_refl) as [w Hw].
      unfold delete_fingerprint. simpl.
      rewrite lookup_insert_ne by (intros E; rewrite E in Hfresh; congruence).
      rewrite Hw. simpl. finish_assignment Hf Ho.
      exists v. repeat split.
    + simpl. finish_assignment Hf Ho. exists v. repeat split.
  - unfold CopyFingerprint. simpl.
    unfold reset_identity_fingerprint, read. simpl. rewrite Ht. simpl.
    destruct (identity_fingerprint t) as [o|] eqn:Ho.
    + destruct (Hta o eq_refl) as [w Hw].
      unfold delete_fingerprint. simpl. rewrite Hw. simpl.
      finish_assignment Hf Ho. repeat split.
    + simpl. finish_assignment Hf Ho. repeat split.
Qed.

Lemma copy_assignment_outcome this from m f t :
  owned m -> read from m = Some f -> read this m = Some t ->
  this <> from ->
  exists m' t', TransportDescription_assign this from m = Some m' /\
                copy_outcome m m' this f (identity_fingerprint t) t'.
Proof.
  intros [Hal _] Hf Ht Hne. unfold TransportDescription_assign.
  rewrite decide_False by exact Hne.
  do 5 assign_step Hf.
  rewrite !read_write_ne by done. rewrite Hf. simpl.
  match goal with
  | |- context [CopyFingerprint _ (write this ?x ?m0)] =>
      destruct (assignment_tail this from (write this x m0) f x)
        as (m' & p & Hrun & Hthis & Hothers & Hfp)
  end.
  - rewrite !read_write_ne by done. exact Hf.
  - apply read_write_eq.
  - exact Hne.
  - intros l Hl. exact (Hal from f l Hf Hl).
  - intros o Ho. exact (Hal this t o Ht Ho).
  - exists m'. eexists. split; [exact Hrun|].
    split; [exact Hthis|]. split; [repeat split|].
    split.
    + intros a Ha. rewrite Hothers by exact Ha.
      rewrite !read_write_ne by done. reflexivity.
    + simpl in Hfp. destruct (identity_fingerprint f) as [l|].
      * destruct Hfp as (v & Hv & -> & ->). exists v. repeat split.
        exact Hv.
      * destruct Hfp as (-> & ->). split; reflexivity.
Qed.

End TransportFacts.

Lemma two_descriptions_owned : owned two_descriptions.
Proof.
  assert (Hcases : forall a td l,
            objects two_descriptions !! a = Some td ->
            identity_fingerprint td = Some l ->
            a = 1%positive /\ l = 1%positive).
  { intros a td l Ha Hl. unfold two_descriptions in Ha. simpl in Ha.
    apply lookup_insert_Some in Ha as [[<- <-] | [_ Ha]].
    - simpl in Hl. split; congruence.
    - apply lookup_singleton_Some in Ha as [_ <-]. discriminate. }
  split.
  - intros a td l Ha Hl. destruct (Hcases a td l Ha Hl) as [_ ->].
    exists "sha-256 4A:AD:B9:B1". reflexivity.
  - intros a b ta tb l Ha Hb Hla Hlb.
    destruct (Hcases a ta l Ha Hla) as [-> _].
    destruct (Hcases b tb l Hb Hlb) as [-> _]. reflexivity.
Qed.

Lemma one_description_owned : owned one_description.
Proof.
  assert (Hcases : forall a td,
            objects one_description !! a = Some td ->
            a = 1%positive /\ td = offer).
  { intros a td Ha. unfold one_description in Ha. simpl in Ha.
    apply lookup_singleton_Some in Ha as [<- <-]. auto. }
  split.
  - intros a td l Ha Hl. destruct (Hcases a td Ha) as [-> ->].
    injection Hl as <-. exists "sha-256 4A:AD:B9:B1". reflexivity.
  - intros a b ta tb l Ha Hb _ _.
    destruct (Hcases a ta Ha) as [-> _].
    destruct (Hcases b tb Hb) as [-> _]. reflexivity.
Qed.

(** C7: copy construction (into storage that holds no object yet) and
    copy assignment (over another object) leave at [this] a description
    whose transport options, ufrag, pwd, mode, role and opaque parameters
    equal the source's and whose fingerprint has the source's value; a null
    fingerprint is copied as null, a non-null one into a newly allocated
    cell that no other object points to; the source is unchanged and every
    cell still has one owner.  The memory only has to hold the source, with
    valid and exclusively owned fingerprint pointers; each operation has
    its own precondition on [this]. *)
Theorem copies_are_deep {SSLFingerprint OpaqueParameters : Type}
    (m : Memory SSLFingerprint OpaqueParameters) (from : positive)
    (f : TransportDescription OpaqueParameters)
    (Hown : owned m) (Hf : read from m = Some f) :
  (forall this, read this m = None ->
     exists m', TransportDescription_copy this from m = Some m' /\
       deep_copy m m' this from f /\ owned m') /\
  (forall this t, read this m = Some t -> this <> from ->
     exists m', TransportDescription_assign this from m = Some m' /\
       deep_copy m m' this from f /\ owned m').
Proof.
  split.
  - intros this Hnew.
    destruct (copy_constructor_outcome this from m f Hown Hf)
      as (m' & t' & Hrun & Hout).
    exists m'. split; [exact Hrun|].
    apply (copy_outcome_deep m m' this from f None t'); try assumption.
    + congruence.
    + discriminate.
    + discriminate.
  - intros this t Hold Hne.
    destruct (copy_assignment_outcome this from m f t Hown Hf Hold Hne)
      as (m' & t' & Hrun & Hout).
    exists m'. split; [exact Hrun|].
    apply (copy_outcome_deep m m' this from f (identity_fingerprint t) t');
      try assumption.
    + intros o Ho. exact (proj1 Hown this t o Hold Ho).
    + intros o Ho a td Ha Hr Htd. apply Ha.
      exact (proj2 Hown a this td t o Hr Hold Htd Ho).
Qed.

Lemma copies_are_deep_witness :
  (owned one_description /\
   read 1%positive one_description = Some offer /\
   read 2%positive one_description = None /\
   exists m', TransportDescription_copy 2%positive 1%positive one_description
              = Some m' /\
     deep_copy one_description m' 2%positive 1%positive offer /\ owned m') /\
  (owned two_descriptions /\
   read 1%positive two_descriptions = Some offer /\
   read 2%positive two_descriptions = Some blank /\
   2%positive <> 1%positive /\
   exists m', TransportDescription_assign 2%positive 1%positive two_descriptions
              = Some m' /\
     deep_copy two_descriptions m' 2%positive 1%positive offer /\ owned m').
Proof.
  split.
  - split; [exact one_description_owned|].
    split; [reflexivity|]. split; [reflexivity|].
    exact (proj1 (copies_are_deep one_description 1%positive offer
                    one_description_owned eq_refl) 2%positive eq_refl).
  - split; [exact two_descriptions_owned|].
    split; [reflexivity|]. split; [reflexivity|]. split; [discriminate|].
    exact (proj2 (copies_are_deep two_descriptions 1%positive offer
                    two_descriptions_owned eq_refl) 2%positive blank eq_refl
             ltac:(discriminate)).
Defined.

(** C9: assigning a description to itself changes nothing: the memory
    after the call is the memory before it, so every field of the object,
    and the fingerprint its pointer refers to, is as before. *)
Theorem self_assignment {SSLFingerprint OpaqueParameters : Type}
    (m : Memory SSLFingerprint OpaqueParameters) (this : positive) :
  exists m', TransportDescription_assign this this m = Some m' /\
    m' = m /\
    read this m' = read this m /\
    forall td, fingerprint_value m' td = fingerprint_value m td.
Proof.
  exists m. unfold TransportDescription_assign.
  rewrite decide_True by reflexivity. repeat split.
Qed.

(** * Further properties of the validators *)

Lemma ParseIceUfrag_cases (umin umax : nat) (s : string) :
  (ParseIceUfrag umin umax s = Value s /\ validated umin umax s) \/
  (ParseIceUfrag umin umax s
   = Error (mkRTCError SYNTAX_ERROR (ufrag_length_message umin umax)) /\
   ~ in_bounds umin umax s) \/
  (ParseIceUfrag umin umax s
   = Error (mkRTCError SYNTAX_ERROR ufrag_chars_message) /\
   in_bounds umin umax s /\ ~ all_allowed s).
Proof.
  unfold ParseIceUfrag, validated.
  destruct ((umin <=? String.length s)%nat && (String.length s <=? umax)%nat)
    eqn:Hb; simpl.
  - apply bounds_test in Hb.
    destruct (c_all_of s IsIceChar) eqn:Hc; simpl.
    + apply c_all_of_allowed in Hc. left. auto.
    + apply c_all_of_not_allowed in Hc. right. right. auto.
  - apply bounds_test_false in Hb. right. left. auto.
Qed.

Lemma ParseIcePwd_cases (pmin pmax : nat) (s : string) :
  (ParseIcePwd pmin pmax s = Value s /\ validated pmin pmax s) \/
  (ParseIcePwd pmin pmax s
   = Error (mkRTCError SYNTAX_ERROR (pwd_length_message pmin pmax)) /\
   ~ in_bounds pmin pmax s) \/
  (ParseIcePwd pmin pmax s
   = Error (mkRTCError SYNTAX_ERROR pwd_chars_message) /\
   in_bounds pmin pmax s /\ ~ all_allowed s).
Proof.
  unfold ParseIcePwd, validated.
  destruct ((pmin <=? String.length s)%nat && (String.length s <=? pmax)%nat)
    eqn:Hb; simpl.
  - apply bounds_test in Hb.
    destruct (c_all_of s IsIceChar) eqn:Hc; simpl.
    + apply c_all_of_allowed in Hc. left. auto.
    + apply c_all_of_not_allowed in Hc. right. right. auto.
  - apply bounds_test_false in Hb. right. left. auto.
Qed.

Lemma Parse_value_inv (umin umax pmin pmax : nat) (u p : string)
    (r : IceParameters) :
  Parse umin umax pmin pmax u p = Value r ->
  r = {| ufrag := u; pwd := p |} /\
  ((u = "" /\ p = "") \/ (validated umin umax u /\ validated pmin pmax p)).
Proof.
  unfold Parse. destruct (empty u && empty p) eqn:He.
  - intros [= <-]. destruct u, p; try discriminate. split; [reflexivity|].
    left. auto.
  - destruct (ParseIceUfrag umin umax u) as [u'|e] eqn:Hpu; [|discriminate].
    destruct (ParseIcePwd pmin pmax p) as [p'|e] eqn:Hpp; [|discriminate].
    intros [= <-].
    apply ParseIceUfrag_inv in Hpu as (-> & Hbu & Hcu).
    apply ParseIcePwd_inv in Hpp as (-> & Hbp & Hcp).
    split; [reflexivity|]. right. unfold validated. auto.
Qed.

(** X1: a successful [IceParameters::Parse] returns its two inputs as they
    were given (nothing is trimmed, folded or truncated), so parsing the
    fields of a result again gives the same result. *)
Theorem Parse_returns_inputs (umin umax pmin pmax : nat) (u p : string)
    (r : IceParameters)
    (Hok : Parse umin umax pmin pmax u p = Value r) :
  ufrag r = u /\ pwd r = p /\
  Parse umin umax pmin pmax (ufrag r) (pwd r) = Value r.
Proof.
  destruct (Parse_value_inv _ _ _ _ _ _ _ Hok) as [Hr _].
  rewrite Hr in *. simpl. auto.
Qed.

Lemma Parse_returns_inputs_witness :
  Parse 4 256 22 256 "u+/9" "0123456789abcdefghijkl"
  = Value {| ufrag := "u+/9"; pwd := "0123456789abcdefghijkl" |} /\
  Parse 4 256 22 256 "u+/9" "0123456789abcdefghijkl"
  = Value {| ufrag := "u+/9"; pwd := "0123456789abcdefghijkl" |}.
Proof.
  split; [reflexivity|].
  exact (proj2 (proj2 (Parse_returns_inputs 4 256 22 256 "u+/9"
                         "0123456789abcdefghijkl" _ eq_refl))).
Defined.

(** X2: [IceParameters::Parse] succeeds exactly when both inputs are empty
    or both are validated: each within its bound pair and made of allowed
    characters only.  This holds for every choice of the bounds. *)
Theorem Parse_success_iff (umin umax pmin pmax : nat) (u p : string) :
  ok (Parse umin umax pmin pmax u p) = true <->
  (u = "" /\ p = "") \/ (validated umin umax u /\ validated pmin pmax p).
Proof.
  split.
  - destruct (Parse umin umax pmin pmax u p) as [r|e] eqn:Hp; [|discriminate].
    intros _. exact (proj2 (Parse_value_inv _ _ _ _ _ _ _ Hp)).
  - intros [[-> ->] | [[Hbu Hcu] [Hbp Hcp]]]; [reflexivity|].
    unfold Parse. destruct (empty u && empty p); [reflexivity|].
    rewrite (ParseIceUfrag_value _ _ _ Hbu Hcu).
    rewrite (ParseIcePwd_value _ _ _ Hbp Hcp). reflexivity.
Qed.

(** X3: every error [IceParameters::Parse] returns is a SYNTAX_ERROR that
    one of the two validators produced for the corresponding input, with
    one of the four fixed messages; the pwd's error is only returned when
    the ufrag is valid. *)
Theorem Parse_error_origin (umin umax pmin pmax : nat) (u p : string)
    (e : RTCError)
    (Herr : Parse umin umax pmin pmax u p = Error e) :
  error_type e = SYNTAX_ERROR /\
  (ParseIceUfrag umin umax u = Error e \/
   (ParseIceUfrag umin umax u = Value u /\ ParseIcePwd pmin pmax p = Error e)) /\
  (message e = ufrag_length_message umin umax \/
   message e = ufrag_chars_message \/
   message e = pwd_length_message pmin pmax \/
   message e = pwd_chars_message).
Proof.
  unfold Parse in Herr. destruct (empty u && empty p); [discriminate|].
  destruct (ParseIceUfrag_cases umin umax u)
    as [[Hu _] | [[Hu _] | [Hu _]]]; rewrite Hu in *.
  - destruct (ParseIcePwd_cases pmin pmax p)
      as [[Hp _] | [[Hp _] | [Hp _]]]; rewrite Hp in *;
      [discriminate | |]; injection Herr as <-; simpl; auto 10.
  - injection Herr as <-. simpl. auto.
  - injection Herr as <-. simpl. auto.
Qed.

Lemma Parse_error_origin_witness :
  Parse 4 256 22 256 "u+/9" "too short" =
    Error (mkRTCError SYNTAX_ERROR
             "ICE pwd must be between 22 and 256 characters long.") /\
  error_type (mkRTCError SYNTAX_ERROR
             "ICE pwd must be between 22 and 256 characters long.")
  = SYNTAX_ERROR.
Proof.
  split; [reflexivity|].
  exact (proj1 (Parse_error_origin 4 256 22 256 "u+/9" "too short" _ eq_refl)).
Defined.

Lemma IsIceChar_range_bool (c : ascii) :
  IsIceChar c = true -> ((43 <=? code c)%nat && (code c <=? 122)%nat) = true.
Proof.
  destruct c as [[] [] [] [] [] [] [] []]; vm_compute; intros H;
    first [reflexivity | discriminate H].
Qed.

Lemma all_allowed_In (s : string) (c : ascii) :
  all_allowed s -> In c (list_ascii_of_string s) -> allowed_char c.
Proof.
  induction s as [|x s IH]; simpl; [contradiction|].
  intros [Hx Hs] [<- | Hin]; [exact Hx | now apply IH].
Qed.

Lemma allowed_char_range (c : ascii) :
  allowed_char c -> IsIceChar c = true /\ 43 <= code c <= 122.
Proof.
  intros Hc. apply IsIceChar_allowed in Hc. split; [exact Hc|].
  apply IsIceChar_range_bool in Hc.
  apply andb_true_iff in Hc as [H1 H2].
  apply Nat.leb_le in H1, H2. lia.
Qed.

(** X4: an accepted character is a 7-bit, printable, non-blank ASCII
    character: its value lies between '+' (43) and 'z' (122).  This holds
    for every character of a string [ParseIceUfrag] accepts, of a string
    [ParseIcePwd] accepts, and of either input of a successful
    [IceParameters::Parse], whatever the bounds: no NUL, no control
    character, no blank and no byte of a multi-byte encoding passes. *)
Theorem IsIceChar_printable_ascii (c : ascii) :
  (forall lo hi s, ok (ParseIceUfrag lo hi s) = true ->
     In c (list_ascii_of_string s) ->
     IsIceChar c = true /\ 43 <= code c <= 122) /\
  (forall lo hi s, ok (ParseIcePwd lo hi s) = true ->
     In c (list_ascii_of_string s) ->
     IsIceChar c = true /\ 43 <= code c <= 122) /\
  (forall umin umax pmin pmax u p,
     ok (Parse umin umax pmin pmax u p) = true ->
     In c (list_ascii_of_string u) \/ In c (list_ascii_of_string p) ->
     IsIceChar c = true /\ 43 <= code c <= 122).
Proof.
  split; [|split].
  - intros lo hi s Hok Hin.
    destruct (ParseIceUfrag_cases lo hi s) as [[_ [_ Hc]] | [[He _] | [He _]]].
    + exact (allowed_char_range c (all_allowed_In s c Hc Hin)).
    + rewrite He in Hok. discriminate.
    + rewrite He in Hok. discriminate.
  - intros lo hi s Hok Hin.
    destruct (ParseIcePwd_cases lo hi s) as [[_ [_ Hc]] | [[He _] | [He _]]].
    + exact (allowed_char_range c (all_allowed_In s c Hc Hin)).
    + rewrite He in Hok. discriminate.
    + rewrite He in Hok. discriminate.
  - intros umin umax pmin pmax u p Hok Hin.
    destruct (Parse umin umax pmin pmax u p) as [r|e] eqn:Hp; [|discriminate].
    destruct (Parse_value_inv _ _ _ _ _ _ _ Hp)
      as [_ [[-> ->] | [[_ Hcu] [_ Hcp]]]].
    + simpl in Hin. tauto.
    + destruct Hin as [Hin | Hin].
      * exact (allowed_char_range c (all_allowed_In u c Hcu Hin)).
      * exact (allowed_char_range c (all_allowed_In p c Hcp Hin)).
Qed.

Lemma IsIceChar_printable_ascii_witness :
  (ok (ParseIceUfrag 4 256 "u+/9") = true /\
   In "/"%char (list_ascii_of_string "u+/9") /\
   IsIceChar "/" = true /\ 43 <= code "/" <= 122) /\
  (ok (ParseIcePwd 22 256 "0123456789abcdefghijk/") = true /\
   In "/"%char (list_ascii_of_string "0123456789abcdefghijk/") /\
   IsIceChar "/" = true /\ 43 <= code "/" <= 122) /\
  (ok (Parse 4 256 22 256 "u+/9" "0123456789abcdefghijkl") = true /\
   (In "/"%char (list_ascii_of_string "u+/9") \/
    In "/"%char (list_ascii_of_string "0123456789abcdefghijkl")) /\
   IsIceChar "/" = true /\ 43 <= code "/" <= 122).
Proof.
  destruct (IsIceChar_printable_ascii "/") as (Hu & Hp & Hparse).
  assert (Hin1 : In "/"%char (list_ascii_of_string "u+/9"))
    by (simpl; auto).
  assert (Hin2 : In "/"%char (list_ascii_of_string "0123456789abcdefghijk/"))
    by (simpl; auto 30).
  split; [|split].
  - split; [reflexivity|]. split; [exact Hin1|].
    exact (Hu 4 256 "u+/9" eq_refl Hin1).
  - split; [reflexivity|]. split; [exact Hin2|].
    exact (Hp 22 256 "0123456789abcdefghijk/" eq_refl Hin2).
  - split; [reflexivity|]. split; [left; exact Hin1|].
    exact (Hparse 4 256 22 256 "u+/9" "0123456789abcdefghijkl" eq_refl
             (or_introl Hin1)).
Defined.

(** X5: the two validators are one check with two sets of messages: with
    the same bound pair they accept the same strings. *)
Theorem validators_agree (lo hi : nat) (s : string) :
  ok (ParseIceUfrag lo hi s) = ok (ParseIcePwd lo hi s) /\
  (forall r, ParseIceUfrag lo hi s = Value r <-> ParseIcePwd lo hi s = Value r).
Proof.
  unfold ParseIceUfrag, ParseIcePwd.
  destruct ((lo <=? String.length s)%nat && (String.length s <=? hi)%nat);
    simpl; [|split; [reflexivity | intros r; split; discriminate]].
  destruct (c_all_of s IsIceChar); simpl;
    split; try reflexivity; intros r; split; (discriminate || auto).
Qed.

(** * Further properties of the role conversions *)

Lemma EqualsIgnoreCase_same_lowered (t s1 s2 : string) :
  lowered s1 = lowered s2 ->
  EqualsIgnoreCase t s1 = EqualsIgnoreCase t s2.
Proof.
  intros Hl.
  destruct (EqualsIgnoreCase t s1) eqn:H1, (EqualsIgnoreCase t s2) eqn:H2;
    try reflexivity.
  - apply EqualsIgnoreCase_lowered in H1.
    assert (EqualsIgnoreCase t s2 = true)
      by (apply EqualsIgnoreCase_lowered; congruence).
    congruence.
  - apply EqualsIgnoreCase_lowered in H2.
    assert (EqualsIgnoreCase t s1 = true)
      by (apply EqualsIgnoreCase_lowered; congruence).
    congruence.
Qed.

(** What a successful scan found: the first entry, at or after index [i],
    that matches [s]; the role is that entry's index past ACTIVE. *)
Lemma scan_roles_true (rest : list string) (i : nat) (s : string)
    (r0 : ConnectionRole) :
  fst (scan_roles rest i s r0) = true ->
  exists k token,
    rest !! k = Some token /\
    EqualsIgnoreCase token s = true /\
    snd (scan_roles rest i s r0) = (CONNECTIONROLE_ACTIVE + Z.of_nat (i + k))%Z /\
    forall j other, (j < k)%nat -> rest !! j = Some other ->
      EqualsIgnoreCase other s = false.
Proof.
  revert i. induction rest as [|t rest IH]; intros i; simpl.
  - discriminate.
  - destruct (EqualsIgnoreCase t s) eqn:Ht; simpl.
    + intros _. exists 0%nat, t. split; [reflexivity|]. split; [exact Ht|].
      split; [now rewrite Nat.add_0_r|]. intros j other Hj. lia.
    + intros Hfound. destruct (IH (S i) Hfound) as (k & token & Hk & Hm & Hs & Hfirst).
      exists (S k), token. split; [exact Hk|]. split; [exact Hm|].
      split; [rewrite Hs; f_equal; lia|].
      intros [|j] other Hj Hl; simpl in Hl.
      * now injection Hl as <-.
      * apply (Hfirst j); [lia | exact Hl].
Qed.

Lemma scan_roles_none (rest : list string) (i : nat) (s : string)
    (r0 : ConnectionRole) :
  fst (scan_roles rest i s r0) = false <->
  Forall (fun token => EqualsIgnoreCase token s = false) rest.
Proof.
  revert i. induction rest as [|t rest IH]; intros i; simpl.
  - split; [constructor | reflexivity].
  - destruct (EqualsIgnoreCase t s) eqn:Ht; simpl.
    + split; [discriminate|]. intros HF. inversion HF; congruence.
    + rewrite IH. split; [now constructor | intros HF; now inversion HF].
Qed.

Lemma scan_roles_same_lowered (rest : list string) (i : nat)
    (s1 s2 : string) (r0 : ConnectionRole) :
  lowered s1 = lowered s2 ->
  scan_roles rest i s1 r0 = scan_roles rest i s2 r0.
Proof.
  intros Hl. revert i. induction rest as [|t rest IH]; intros i; simpl.
  - reflexivity.
  - rewrite (EqualsIgnoreCase_same_lowered t s1 s2 Hl).
    destruct (EqualsIgnoreCase t s2); [reflexivity | apply IH].
Qed.

Lemma roles_lookup (A P AP H : string) (k : nat) (token : string) :
  roles A P AP H !! k = Some token ->
  (k < 4)%nat /\
  token = token_of A P AP H (CONNECTIONROLE_ACTIVE + Z.of_nat k)%Z /\
  named_role (CONNECTIONROLE_ACTIVE + Z.of_nat k)%Z.
Proof.
  unfold roles, named_role.
  destruct k as [|[|[|[|k]]]]; simpl; try discriminate;
    intros [= <-]; (split; [lia|]); (split; [reflexivity|]);
    unfold CONNECTIONROLE_ACTIVE, CONNECTIONROLE_PASSIVE,
      CONNECTIONROLE_ACTPASS, CONNECTIONROLE_HOLDCONN; simpl; auto.
Qed.

(** X6: whatever the text and the tokens, a successful
    [StringToConnectionRole] writes one of the four named roles: the index
    arithmetic [CONNECTIONROLE_ACTIVE + i] never yields None or a value
    outside the enumeration. *)
Theorem StringToConnectionRole_in_range (A P AP H : string) (s : string)
    (r0 : ConnectionRole)
    (Hok : fst (StringToConnectionRole A P AP H s r0) = true) :
  named_role (snd (StringToConnectionRole A P AP H s r0)) /\
  snd (StringToConnectionRole A P AP H s r0) <> CONNECTIONROLE_NONE.
Proof.
  unfold StringToConnectionRole in *.
  destruct (scan_roles_true _ _ _ _ Hok) as (k & token & Hk & _ & Hs & _).
  rewrite Hs. simpl.
  destruct (roles_lookup A P AP H k token Hk) as (_ & _ & Hn).
  split; [exact Hn|].
  unfold CONNECTIONROLE_NONE, CONNECTIONROLE_ACTIVE. lia.
Qed.

Lemma StringToConnectionRole_in_range_witness :
  fst (StringToConnectionRole "active" "passive" "actpass" "holdconn"
         "HoldConn" CONNECTIONROLE_NONE) = true /\
  named_role (snd (StringToConnectionRole "active" "passive" "actpass"
                     "holdconn" "HoldConn" CONNECTIONROLE_NONE)).
Proof.
  split; [reflexivity|].
  exact (proj1 (StringToConnectionRole_in_range "active" "passive" "actpass"
                  "holdconn" "HoldConn" CONNECTIONROLE_NONE eq_refl)).
Defined.

(** X7: [StringToConnectionRole] succeeds exactly when the text equals one
    of the four tokens up to ASCII letter case; there is no trimming and no
    prefix match. *)
Theorem StringToConnectionRole_success_iff (A P AP H : string) (s : string)
    (r0 : ConnectionRole) :
  fst (StringToConnectionRole A P AP H s r0) = true <->
  (lowered s = lowered A \/ lowered s = lowered P \/
   lowered s = lowered AP \/ lowered s = lowered H).
Proof.
  unfold StringToConnectionRole.
  destruct (fst (scan_roles (roles A P AP H) 0 s r0)) eqn:Hs.
  - split; [intros _ | reflexivity].
    destruct (scan_roles_true _ _ _ _ Hs) as (k & token & Hk & Hm & _).
    apply EqualsIgnoreCase_lowered in Hm. unfold roles in Hk.
    destruct k as [|[|[|[|k]]]]; simpl in Hk; try discriminate;
      injection Hk as <-; auto.
  - split; [discriminate|]. intros Hany. exfalso.
    apply scan_roles_none in Hs. unfold roles in Hs.
    inversion Hs as [|? ? HA Hs1]; subst.
    inversion Hs1 as [|? ? HP Hs2]; subst.
    inversion Hs2 as [|? ? HAP Hs3]; subst.
    inversion Hs3 as [|? ? HH _]; subst.
    destruct Hany as [E | [E | [E | E]]]; symmetry in E;
      apply EqualsIgnoreCase_lowered in E; congruence.
Qed.

(** X8: the other round trip.  When [StringToConnectionRole] accepts a
    text, [ConnectionRoleToString] on the role it wrote succeeds and gives
    the token the text matched, i.e. the text in its canonical spelling.
    No assumption on the tokens is needed. *)
Theorem string_role_string (A P AP H : string) (s : string)
    (r0 : ConnectionRole) (out : string)
    (Hok : fst (StringToConnectionRole A P AP H s r0) = true) :
  fst (ConnectionRoleToString A P AP H
         (snd (StringToConnectionRole A P AP H s r0)) out) = true /\
  EqualsIgnoreCase
    (snd (ConnectionRoleToString A P AP H
            (snd (StringToConnectionRole A P AP H s r0)) out)) s = true.
Proof.
  unfold StringToConnectionRole in *.
  destruct (scan_roles_true _ _ _ _ Hok) as (k & token & Hk & Hm & Hs & _).
  rewrite Hs. simpl.
  destruct (roles_lookup A P AP H k token Hk) as (_ & Ht & Hn).
  rewrite (ConnectionRoleToString_named A P AP H _ out Hn). simpl.
  rewrite <- Ht. split; [reflexivity | exact Hm].
Qed.

Lemma string_role_string_witness :
  fst (StringToConnectionRole "active" "passive" "actpass" "holdconn"
         "ActPass" CONNECTIONROLE_NONE) = true /\
  fst (ConnectionRoleToString "active" "passive" "actpass" "holdconn"
         (snd (StringToConnectionRole "active" "passive" "actpass" "holdconn"
                 "ActPass" CONNECTIONROLE_NONE)) "") = true /\
  EqualsIgnoreCase
    (snd (ConnectionRoleToString "active" "passive" "actpass" "holdconn"
            (snd (StringToConnectionRole "active" "passive" "actpass"
                    "holdconn" "ActPass" CONNECTIONROLE_NONE)) ""))
    "ActPass" = true.
Proof.
  split; [reflexivity|].
  exact (string_role_string "active" "passive" "actpass" "holdconn"
           "ActPass" CONNECTIONROLE_NONE "" eq_refl).
Defined.

(** X9: [StringToConnectionRole] cannot tell apart two texts that differ
    only in the case of ASCII letters: result and written role are the
    same. *)
Theorem StringToConnectionRole_ignores_case (A P AP H : string)
    (s1 s2 : string) (r0 : ConnectionRole)
    (Hsame : EqualsIgnoreCase s1 s2 = true) :
  StringToConnectionRole A P AP H s1 r0 = StringToConnectionRole A P AP H s2 r0.
Proof.
  apply scan_roles_same_lowered. now apply EqualsIgnoreCase_lowered.
Qed.

Lemma StringToConnectionRole_ignores_case_witness :
  EqualsIgnoreCase "PASSIVE" "pAsSiVe" = true /\
  StringToConnectionRole "active" "passive" "actpass" "holdconn" "PASSIVE"
    CONNECTIONROLE_NONE
  = StringToConnectionRole "active" "passive" "actpass" "holdconn" "pAsSiVe"
      CONNECTIONROLE_NONE.
Proof.
  split; [reflexivity|].
  exact (StringToConnectionRole_ignores_case "active" "passive" "actpass"
           "holdconn" "PASSIVE" "pAsSiVe" CONNECTIONROLE_NONE eq_refl).
Defined.

(** X10: with four tokens that differ up to case, [ConnectionRoleToString]
    is injective on its successes: two roles printed as the same token are
    the same role. *)
Theorem ConnectionRoleToString_injective (A P AP H : string)
    (r1 r2 : ConnectionRole) (out1 out2 : string)
    (Hd : tokens_distinct A P AP H)
    (H1 : fst (ConnectionRoleToString A P AP H r1 out1) = true)
    (H2 : fst (ConnectionRoleToString A P AP H r2 out2) = true)
    (Heq : snd (ConnectionRoleToString A P AP H r1 out1)
           = snd (ConnectionRoleToString A P AP H r2 out2)) :
  r1 = r2.
Proof.
  assert (Hn1 : named_role r1).
  { destruct (named_role_dec r1) as [Hn|Hn]; [exact Hn|].
    rewrite (ConnectionRoleToString_other A P AP H r1 out1 Hn) in H1.
    discriminate. }
  assert (Hn2 : named_role r2).
  { destruct (named_role_dec r2) as [Hn|Hn]; [exact Hn|].
    rewrite (ConnectionRoleToString_other A P AP H r2 out2 Hn) in H2.
    discriminate. }
  rewrite (ConnectionRoleToString_named A P AP H r1 out1 Hn1) in Heq.
  rewrite (ConnectionRoleToString_named A P AP H r2 out2 Hn2) in Heq.
  simpl in Heq.
  pose proof (StringToConnectionRole_match A P AP H r1
                (token_of A P AP H r1) CONNECTIONROLE_NONE Hd Hn1
                (EqualsIgnoreCase_refl _)) as E1.
  pose proof (StringToConnectionRole_match A P AP H r2
                (token_of A P AP H r2) CONNECTIONROLE_NONE Hd Hn2
                (EqualsIgnoreCase_refl _)) as E2.
  rewrite Heq in E1. congruence.
Qed.

Lemma ConnectionRoleToString_injective_witness :
  tokens_distinct "active" "passive" "actpass" "holdconn" /\
  fst (ConnectionRoleToString "active" "passive" "actpass" "holdconn"
         CONNECTIONROLE_PASSIVE "") = true /\
  fst (ConnectionRoleToString "active" "passive" "actpass" "holdconn"
         (1 + 1)%Z "x") = true /\
  snd (ConnectionRoleToString "active" "passive" "actpass" "holdconn"
         CONNECTIONROLE_PASSIVE "")
  = snd (ConnectionRoleToString "active" "passive" "actpass" "holdconn"
           (1 + 1)%Z "x") /\
  CONNECTIONROLE_PASSIVE = (1 + 1)%Z.
Proof.
  assert (Hd : tokens_distinct "active" "passive" "actpass" "holdconn")
    by (repeat split).
  split; [exact Hd|]. split; [reflexivity|]. split; [reflexivity|].
  split; [reflexivity|].
  exact (ConnectionRoleToString_injective "active" "passive" "actpass"
           "holdconn" CONNECTIONROLE_PASSIVE (1 + 1)%Z "" "x"
           Hd eq_refl eq_refl eq_refl).
Defined.

(** * Further properties of construction, copy and destruction *)

Section LifecycleFacts.

Context {SSLFingerprint OpaqueParameters : Type}.
Implicit Types m : Memory SSLFingerprint OpaqueParameters.
Implicit Types f t td : TransportDescription OpaqueParameters.

Lemma drop_cell_Some (old : option positive)
    (fps : gmap positive SSLFingerprint) (l : positive) (x : SSLFingerprint) :
  drop_cell old fps !! l = Some x -> old <> Some l /\ fps !! l = Some x.
Proof.
  destruct old as [o|]; simpl.
  - intros Hl. apply lookup_delete_Some in Hl as [Hne Hl].
    split; [congruence | exact Hl].
  - intros Hl. split; [discriminate | exact Hl].
Qed.

Lemma drop_cell_gone (old : option positive)
    (fps : gmap positive SSLFingerprint) (o : positive) :
  old = Some o -> drop_cell old fps !! o = None.
Proof. intros ->. simpl. apply lookup_delete_eq. Qed.

(** The cell [this] gives up belongs to no other object. *)
Lemma old_cell_exclusive m this t :
  owned m -> read this m = Some t ->
  forall o, identity_fingerprint t = Some o ->
    forall a td, a <> this -> read a m = Some td ->
      identity_fingerprint td <> Some o.
Proof.
  intros [_ Hex] Ht o Ho a td Ha Hr Htd. apply Ha.
  exact (Hex a this td t o Hr Ht Htd Ho).
Qed.

Lemma copy_outcome_kept m m' this f old t' :
  owned m ->
  (forall o, old = Some o ->
     forall a td, a <> this -> read a m = Some td ->
       identity_fingerprint td <> Some o) ->
  copy_outcome m m' this f old t' ->
  others_kept m m' this.
Proof.
  intros [Hal _] Hold (_ & _ & Hothers & Hfp) a td Ha Hr.
  split; [rewrite Hothers by exact Ha; exact Hr|].
  unfold fingerprint_value.
  destruct (identity_fingerprint td) as [l|] eqn:Hl; [|reflexivity].
  assert (Hol : old <> Some l).
  { intros ->. exact (Hold l eq_refl a td Ha Hr Hl). }
  destruct (identity_fingerprint f) as [lf|].
  - destruct Hfp as (v & _ & _ & ->).
    rewrite drop_cell_lookup by exact Hol. apply lookup_insert_ne.
    intros E. pose proof (fresh_cell m) as Hfresh. rewrite E in Hfresh.
    destruct (Hal a td l Hr Hl) as [x Hx]. congruence.
  - destruct Hfp as (_ & ->). now apply drop_cell_lookup.
Qed.

Lemma copy_outcome_accounted m m' this f old t' :
  accounted m ->
  (forall td, read this m = Some td -> identity_fingerprint td = old) ->
  copy_outcome m m' this f old t' ->
  accounted m' /\ forall o, old = Some o -> fingerprints m' !! o = None.
Proof.
  intros Hacc Hthis (Ht' & _ & Hothers & Hfp).
  pose proof (fresh_cell m) as Hfresh.
  assert (Hfrom_m : forall l x, old <> Some l -> fingerprints m !! l = Some x ->
            exists a td, read a m' = Some td /\ identity_fingerprint td = Some l).
  { intros l x Hol Hx. destruct (Hacc l (ex_intro _ x Hx)) as (a & td & Hr & Hl).
    destruct (decide (a = this)) as [->|Ha].
    - rewrite <- (Hthis td Hr) in Hol. contradiction.
    - exists a, td. split; [rewrite Hothers by exact Ha; exact Hr | exact Hl]. }
  destruct (identity_fingerprint f) as [lf|].
  - destruct Hfp as (v & Hv & Hp & Hfps). split.
    + intros l [x Hx]. rewrite Hfps in Hx.
      apply drop_cell_Some in Hx as [Hol Hx].
      apply lookup_insert_Some in Hx as [[<- _] | [_ Hx]].
      * exists this, t'. auto.
      * exact (Hfrom_m l x Hol Hx).
    + intros o Ho. rewrite Hfps. now apply drop_cell_gone.
  - destruct Hfp as (Hp & Hfps). split.
    + intros l [x Hx]. rewrite Hfps in Hx.
      apply drop_cell_Some in Hx as [Hol Hx]. exact (Hfrom_m l x Hol Hx).
    + intros o Ho. rewrite Hfps. now apply drop_cell_gone.
Qed.

(** What the destructor does to the memory. *)
Lemma destroy_outcome m this t :
  owned m -> read this m = Some t ->
  exists m', TransportDescription_destroy this m = Some m' /\
    read this m' = None /\
    (forall a, a <> this -> read a m' = read a m) /\
    fingerprints m' = drop_cell (identity_fingerprint t) (fingerprints m).
Proof.
  intros [Hal _] Ht. unfold TransportDescription_destroy. rewrite Ht. simpl.
  destruct (identity_fingerprint t) as [o|] eqn:Ho.
  - destruct (Hal this t o Ht Ho) as [w Hw].
    unfold delete_fingerprint. rewrite Hw. simpl.
    eexists. split; [reflexivity|]. unfold read. simpl.
    split; [apply lookup_delete_eq|].
    split; [intros a Ha; now apply lookup_delete_ne | reflexivity].
  - simpl. eexists. split; [reflexivity|]. unfold read. simpl.
    split; [apply lookup_delete_eq|].
    split; [intros a Ha; now apply lookup_delete_ne | reflexivity].
Qed.

Lemma destroy_keeps m m' this t :
  owned m -> read this m = Some t ->
  read this m' = None ->
  (forall a, a <> this -> read a m' = read a m) ->
  fingerprints m' = drop_cell (identity_fingerprint t) (fingerprints m) ->
  others_kept m m' this /\ owned m'.
Proof.
  intros Hown Ht Hgone Hothers Hfps.
  pose proof (old_cell_exclusive m this t Hown Ht) as Hexcl.
  destruct Hown as [Hal Hex].
  assert (Hkept : forall a td l, a <> this -> read a m = Some td ->
            identity_fingerprint td = Some l ->
            fingerprints m' !! l = fingerprints m !! l).
  { intros a td l Ha Hr Hl. rewrite Hfps. apply drop_cell_lookup.
    intros Ho. exact (Hexcl l Ho a td Ha Hr Hl). }
  split; [|split].
  - intros a td Ha Hr. split; [rewrite Hothers by exact Ha; exact Hr|].
    unfold fingerprint_value.
    destruct (identity_fingerprint td) as [l|] eqn:Hl; [|reflexivity].
    exact (Hkept a td l Ha Hr Hl).
  - intros a td l Ha Hl. change (read a m' = Some td) in Ha.
    destruct (decide (a = this)) as [->|Hat]; [congruence|].
    rewrite Hothers in Ha by exact Hat.
    rewrite (Hkept a td l Hat Ha Hl). exact (Hal a td l Ha Hl).
  - intros a b ta tb l Ha Hb Hla Hlb.
    change (read a m' = Some ta) in Ha. change (read b m' = Some tb) in Hb.
    destruct (decide (a = this)) as [->|Hat]; [congruence|].
    destruct (decide (b = this)) as [->|Hbt]; [congruence|].
    rewrite Hothers in Ha by exact Hat. rewrite Hothers in Hb by exact Hbt.
    exact (Hex a b ta tb l Ha Hb Hla Hlb).
Qed.

Lemma destroy_accounted m m' this t :
  accounted m -> read this m = Some t ->
  (forall a, a <> this -> read a m' = read a m) ->
  fingerprints m' = drop_cell (identity_fingerprint t) (fingerprints m) ->
  accounted m' /\
  forall o, identity_fingerprint t = Some o -> fingerprints m' !! o = None.
Proof.
  intros Hacc Ht Hothers Hfps. split.
  - intros l [x Hx]. rewrite Hfps in Hx.
    apply drop_cell_Some in Hx as [Hol Hx].
    destruct (Hacc l (ex_intro _ x Hx)) as (a & td & Hr & Hl).
    destruct (decide (a = this)) as [->|Ha].
    + assert (td = t) as -> by congruence. contradiction.
    + exists a, td. split; [rewrite Hothers by exact Ha; exact Hr | exact Hl].
  - intros o Ho. rewrite Hfps. now apply drop_cell_gone.
Qed.

Lemma same_fields_trans (x y z : TransportDescription OpaqueParameters) :
  same_fields x y -> same_fields y z -> same_fields x z.
Proof.
  unfold same_fields.
  intros (H1 & H2 & H3 & H4 & H5 & H6) (G1 & G2 & G3 & G4 & G5 & G6).
  repeat split; congruence.
Qed.

End LifecycleFacts.

Lemma two_descriptions_accounted : accounted two_descriptions.
Proof.
  intros l [x Hx]. unfold two_descriptions in Hx. simpl in Hx.
  apply lookup_singleton_Some in Hx as [<- _].
  exists 1%positive, offer. split; reflexivity.
Qed.

(** X11: a copy outlives its source.  After copy construction, destroying
    the source (which frees the source's fingerprint) leaves the copy with
    all its field values and with the fingerprint value the source had. *)
Theorem copy_survives_source {SSLFingerprint OpaqueParameters : Type}
    (m : Memory SSLFingerprint OpaqueParameters) (from this : positive)
    (f : TransportDescription OpaqueParameters)
    (Hown : owned m) (Hf : read from m = Some f)
    (Hnew : read this m = None) :
  exists m1 m2 t',
    TransportDescription_copy this from m = Some m1 /\
    TransportDescription_destroy from m1 = Some m2 /\
    read from m2 = None /\
    (forall l, identity_fingerprint f = Some l -> fingerprints m2 !! l = None) /\
    read this m2 = Some t' /\
    same_fields t' f /\
    fingerprint_value m2 t' = fingerprint_value m f /\
    owned m2.
Proof.
  assert (Hne : this <> from) by congruence.
  destruct (copy_constructor_outcome this from m f Hown Hf)
    as (m1 & t0 & Hrun & Hout).
  destruct (copy_outcome_deep m m1 this from f None t0 Hown Hf Hne
              ltac:(discriminate) ltac:(discriminate) Hout)
    as [(t' & Ht' & Hsame & Hval & _ & _ & Hfrom1 & _) Hown1].
  destruct (destroy_outcome m1 from f Hown1 Hfrom1)
    as (m2 & Hdes & Hgone & Hothers & Hfps).
  destruct (destroy_keeps m1 m2 from f Hown1 Hfrom1 Hgone Hothers Hfps)
    as [Hkept Hown2].
  destruct (Hkept this t' Hne Ht') as [Ht2 Hval2].
  exists m1, m2, t'. split; [exact Hrun|]. split; [exact Hdes|].
  split; [exact Hgone|]. split.
  - intros l Hl. rewrite Hfps. now apply drop_cell_gone.
  - split; [exact Ht2|]. split; [exact Hsame|].
    split; [congruence | exact Hown2].
Qed.

Lemma copy_survives_source_witness :
  owned two_descriptions /\
  read 1%positive two_descriptions = Some offer /\
  read 3%positive two_descriptions = None /\
  exists m1 m2 t',
    TransportDescription_copy 3%positive 1%positive two_descriptions = Some m1 /\
    TransportDescription_destroy 1%positive m1 = Some m2 /\
    read 1%positive m2 = None /\
    (forall l, identity_fingerprint offer = Some l ->
       fingerprints m2 !! l = None) /\
    read 3%positive m2 = Some t' /\
    same_fields t' offer /\
    fingerprint_value m2 t' = fingerprint_value two_descriptions offer /\
    owned m2.
Proof.
  split; [exact two_descriptions_owned|].
  split; [reflexivity|]. split; [reflexivity|].
  exact (copy_survives_source two_descriptions 1%positive 3%positive offer
           two_descriptions_owned eq_refl eq_refl).
Defined.

Lemma one_description_accounted : accounted one_description.
Proof.
  intros l [x Hx]. unfold one_description in Hx. simpl in Hx.
  apply lookup_singleton_Some in Hx as [<- _].
  exists 1%positive, offer. split; reflexivity.
Qed.

(** X12: nothing leaks.  In a memory where every allocated fingerprint
    cell belongs to some description, copy construction, copy assignment
    and destruction keep it so; assignment (to another object) and
    destruction free the cell the object held before.  Each operation is
    taken with its own precondition: the memory need not hold any
    description besides the ones the operation names. *)
Theorem no_cell_leaks {SSLFingerprint OpaqueParameters : Type}
    (m : Memory SSLFingerprint OpaqueParameters)
    (Hown : owned m) (Hacc : accounted m) :
  (forall this from f, read from m = Some f -> read this m = None ->
     exists m', TransportDescription_copy this from m = Some m' /\
       accounted m') /\
  (forall this from f t, read from m = Some f -> read this m = Some t ->
     exists m', TransportDescription_assign this from m = Some m' /\
       accounted m' /\
       (this <> from ->
        forall o, identity_fingerprint t = Some o ->
          fingerprints m' !! o = None)) /\
  (forall this t, read this m = Some t ->
     exists m', TransportDescription_destroy this m = Some m' /\
       accounted m' /\
       forall o, identity_fingerprint t = Some o ->
         fingerprints m' !! o = None).
Proof.
  split; [|split].
  - intros this from f Hf Hnew.
    destruct (copy_constructor_outcome this from m f Hown Hf)
      as (m' & t' & Hrun & Hout).
    exists m'. split; [exact Hrun|].
    apply (copy_outcome_accounted m m' this f None t' Hacc); [|exact Hout].
    intros td Htd. congruence.
  - intros this from f t Hf Hold.
    destruct (decide (this = from)) as [->|Hne].
    + exists m. unfold TransportDescription_assign.
      rewrite decide_True by reflexivity.
      split; [reflexivity|]. split; [exact Hacc|]. intros Hne. contradiction.
    + destruct (copy_assignment_outcome this from m f t Hown Hf Hold Hne)
        as (m' & t' & Hrun & Hout).
      exists m'. split; [exact Hrun|].
      destruct (copy_outcome_accounted m m' this f (identity_fingerprint t) t'
                  Hacc) as [Ha Hfreed]; [|exact Hout|].
      * intros td Htd. congruence.
      * split; [exact Ha|]. intros _. exact Hfreed.
  - intros this t Hold.
    destruct (destroy_outcome m this t Hown Hold)
      as (m' & Hrun & _ & Hothers & Hfps).
    exists m'. split; [exact Hrun|].
    exact (destroy_accounted m m' this t Hacc Hold Hothers Hfps).
Qed.

Lemma no_cell_leaks_witness :
  (owned one_description /\ accounted one_description /\
   read 1%positive one_description = Some offer /\
   read 2%positive one_description = None /\
   (exists m', TransportDescription_copy 2%positive 1%positive one_description
               = Some m' /\ accounted m') /\
   (exists m', TransportDescription_destroy 1%positive one_description
               = Some m' /\ accounted m' /\
      forall o, identity_fingerprint offer = Some o ->
        fingerprints m' !! o = None)) /\
  (owned two_descriptions /\ accounted two_descriptions /\
   read 2%positive two_descriptions = Some blank /\
   read 1%positive two_descriptions = Some offer /\
   exists m', TransportDescription_assign 1%positive 2%positive two_descriptions
              = Some m' /\
     accounted m' /\
     (1%positive <> 2%positive ->
      forall o, identity_fingerprint offer = Some o ->
        fingerprints m' !! o = None)).
Proof.
  destruct (no_cell_leaks one_description one_description_owned
              one_description_accounted) as (Hcopy & _ & Hdestroy).
  destruct (no_cell_leaks two_descriptions two_descriptions_owned
              two_descriptions_accounted) as (_ & Hassign & _).
  split.
  - split; [exact one_description_owned|].
    split; [exact one_description_accounted|].
    split; [reflexivity|]. split; [reflexivity|].
    split; [exact (Hcopy 2%positive 1%positive offer eq_refl eq_refl)|].
    exact (Hdestroy 1%positive offer eq_refl).
  - split; [exact two_descriptions_owned|].
    split; [exact two_descriptions_accounted|].
    split; [reflexivity|]. split; [reflexivity|].
    exact (Hassign 1%positive 2%positive blank offer eq_refl eq_refl).
Defined.

(** X13: the copy operations and the destructor touch one object only:
    every description at another address, and the fingerprint it owns, is
    the same afterwards.  Each operation is taken with its own
    precondition; for the copy operations the source is among the objects
    that are kept. *)
Theorem other_objects_untouched {SSLFingerprint OpaqueParameters : Type}
    (m : Memory SSLFingerprint OpaqueParameters) (Hown : owned m) :
  (forall this from f, read from m = Some f ->
     exists m', TransportDescription_copy this from m = Some m' /\
       others_kept m m' this) /\
  (forall this from f t, read from m = Some f -> read this m = Some t ->
     exists m', TransportDescription_assign this from m = Some m' /\
       others_kept m m' this) /\
  (forall this t, read this m = Some t ->
     exists m', TransportDescription_destroy this m = Some m' /\
       others_kept m m' this).
Proof.
  split; [|split].
  - intros this from f Hf.
    destruct (copy_constructor_outcome this from m f Hown Hf)
      as (m' & t' & Hrun & Hout).
    exists m'. split; [exact Hrun|].
    apply (copy_outcome_kept m m' this f None t' Hown); [|exact Hout].
    discriminate.
  - intros this from f t Hf Hold.
    destruct (decide (this = from)) as [->|Hne].
    + exists m. unfold TransportDescription_assign.
      rewrite decide_True by reflexivity.
      split; [reflexivity|]. intros a td _ Hr. split; [exact Hr | reflexivity].
    + destruct (copy_assignment_outcome this from m f t Hown Hf Hold Hne)
        as (m' & t' & Hrun & Hout).
      exists m'. split; [exact Hrun|].
      apply (copy_outcome_kept m m' this f (identity_fingerprint t) t' Hown);
        [|exact Hout].
      exact (old_cell_exclusive m this t Hown Hold).
  - intros this t Hold.
    destruct (destroy_outcome m this t Hown Hold)
      as (m' & Hrun & Hgone & Hothers & Hfps).
    exists m'. split; [exact Hrun|].
    exact (proj1 (destroy_keeps m m' this t Hown Hold Hgone Hothers Hfps)).
Qed.

Lemma other_objects_untouched_witness :
  (owned one_description /\
   read 1%positive one_description = Some offer /\
   (exists m', TransportDescription_copy 2%positive 1%positive one_description
               = Some m' /\ others_kept one_description m' 2%positive) /\
   (exists m', TransportDescription_destroy 1%positive one_description
               = Some m' /\ others_kept one_description m' 1%positive)) /\
  (owned two_descriptions /\
   read 1%positive two_descriptions = Some offer /\
   read 2%positive two_descriptions = Some blank /\
   exists m', TransportDescription_assign 2%positive 1%positive two_descriptions
              = Some m' /\ others_kept two_descriptions m' 2%positive).
Proof.
  destruct (other_objects_untouched one_description one_description_owned)
    as (Hcopy & _ & Hdestroy).
  destruct (other_objects_untouched two_descriptions two_descriptions_owned)
    as (_ & Hassign & _).
  split.
  - split; [exact one_description_owned|]. split; [reflexivity|].
    split; [exact (Hcopy 2%positive 1%positive offer eq_refl)|].
    exact (Hdestroy 1%positive offer eq_refl).
  - split; [exact two_descriptions_owned|].
    split; [reflexivity|]. split; [reflexivity|].
    exact (Hassign 2%positive 1%positive offer blank eq_refl eq_refl).
Defined.

(** Storing a description without fingerprint at [this] disturbs nothing
    else. *)
Lemma write_without_fingerprint {SSLFingerprint OpaqueParameters : Type}
    (m : Memory SSLFingerprint OpaqueParameters) (this : positive)
    (td : TransportDescription OpaqueParameters) :
  owned m -> identity_fingerprint td = None ->
  others_kept m (write this td m) this /\ owned (write this td m).
Proof.
  intros [Hal Hex] Hnone. split; [|split].
  - intros a x Ha Hr. rewrite read_write_ne by done.
    split; [exact Hr | reflexivity].
  - intros a x k Ha Hk. simpl in *.
    apply lookup_insert_Some in Ha as [[<- <-] | [Hat Ha]];
      [congruence | exact (Hal a x k Ha Hk)].
  - intros a b ta tb k Ha Hb Hka Hkb. simpl in *.
    apply lookup_insert_Some in Ha as [[<- <-] | [Hat Ha]];
      apply lookup_insert_Some in Hb as [[<- <-] | [Hbt Hb]];
      first [reflexivity | congruence | exact (Hex a b ta tb k Ha Hb Hka Hkb)].
Qed.

(** X14: the six-argument constructor stores its arguments and takes a
    copy of the caller's fingerprint: a null pointer gives a description
    without fingerprint; a valid pointer gives one whose fingerprint has
    the same value in a newly allocated cell, so the caller keeps sole
    ownership of its own.  No existing cell changes and exclusive
    ownership is preserved. *)
Theorem full_constructor_copies {SSLFingerprint OpaqueParameters : Type}
    (none : OpaqueParameters)
    (m : Memory SSLFingerprint OpaqueParameters) (this : positive)
    (options : list string) (u p : string) (mode : IceMode)
    (role : ConnectionRole) (fingerprint : option positive)
    (Hown : owned m)
    (Hvalid : forall l, fingerprint = Some l -> is_Some (fingerprints m !! l)) :
  exists m' t',
    TransportDescription_full none this options u p mode role fingerprint m
    = Some m' /\
    read this m' = Some t' /\
    (transport_options t' = options /\ ice_ufrag t' = u /\ ice_pwd t' = p /\
     ice_mode t' = mode /\ connection_role t' = role /\
     opaque_parameters t' = none) /\
    (identity_fingerprint t' = None <-> fingerprint = None) /\
    fingerprint_value m' t' = (l ← fingerprint; fingerprints m !! l) /\
    (forall l, identity_fingerprint t' = Some l ->
       fingerprint <> Some l /\ fingerprints m !! l = None) /\
    (forall l, is_Some (fingerprints m !! l) ->
       fingerprints m' !! l = fingerprints m !! l) /\
    others_kept m m' this /\
    owned m'.
Proof.
  destruct Hown as [Hal Hex].
  pose proof (fresh_cell m) as Hfresh.
  unfold TransportDescription_full.
  destruct fingerprint as [l|].
  - destruct (Hvalid l eq_refl) as [v Hv].
    unfold CopyFingerprint, new_fingerprint. rewrite Hv. simpl.
    set (l' := fresh (dom (fingerprints m))) in *.
    assert (Hkeep : forall k, is_Some (fingerprints m !! k) ->
              <[l':=v]> (fingerprints m) !! k = fingerprints m !! k).
    { intros k [x Hx]. apply lookup_insert_ne. intros E.
      rewrite E in Hfresh. congruence. }
    eexists. eexists. split; [reflexivity|].
    split; [apply read_write_eq|]. split; [repeat split|]. simpl.
    split; [split; discriminate|].
    split; [unfold fingerprint_value; simpl; rewrite lookup_insert_eq;
            now rewrite Hv|].
    split; [intros k [= <-]; split; [|exact Hfresh];
            intros [= E]; rewrite E in Hv; congruence|].
    split; [exact Hkeep|].
    split; [|split].
    + intros a td Ha Hr. rewrite read_write_ne by done.
      split; [exact Hr|]. unfold fingerprint_value. simpl.
      destruct (identity_fingerprint td) as [k|] eqn:Hk; [|reflexivity].
      apply Hkeep. exact (Hal a td k Hr Hk).
    + intros a td k Ha Hk. simpl in *.
      apply lookup_insert_Some in Ha as [[<- <-] | [Hat Ha]].
      * simpl in Hk. injection Hk as <-. rewrite lookup_insert_eq. eauto.
      * rewrite Hkeep; exact (Hal a td k Ha Hk).
    + intros a b ta tb k Ha Hb Hka Hkb. simpl in *.
      apply lookup_insert_Some in Ha as [[<- <-] | [Hat Ha]];
        apply lookup_insert_Some in Hb as [[<- <-] | [Hbt Hb]].
      * reflexivity.
      * simpl in Hka. injection Hka as <-.
        destruct (Hal b tb l' Hb Hkb) as [x Hx]. congruence.
      * simpl in Hkb. injection Hkb as <-.
        destruct (Hal a ta l' Ha Hka) as [x Hx]. congruence.
      * exact (Hex a b ta tb k Ha Hb Hka Hkb).
  - simpl. eexists. eexists. split; [reflexivity|].
    split; [apply read_write_eq|]. split; [repeat split|]. simpl.
    split; [tauto|]. split; [reflexivity|].
    split; [discriminate|]. split; [reflexivity|].
    apply write_without_fingerprint; [split; assumption | reflexivity].
Qed.

Lemma full_constructor_copies_witness :
  owned two_descriptions /\
  (forall l, Some 1%positive = Some l ->
     is_Some (fingerprints two_descriptions !! l)) /\
  exists m' t',
    TransportDescription_full [] 3%positive ["trickle"] "u+/9"
      "0123456789abcdefghijkl" ICEMODE_FULL CONNECTIONROLE_ACTIVE
      (Some 1%positive) two_descriptions = Some m' /\
    read 3%positive m' = Some t' /\
    fingerprint_value m' t' = Some "sha-256 4A:AD:B9:B1" /\
    identity_fingerprint t' <> Some 1%positive.
Proof.
  assert (Hvalid : forall l, Some 1%positive = Some l ->
            is_Some (fingerprints two_descriptions !! l)).
  { intros l [= <-]. exists "sha-256 4A:AD:B9:B1". reflexivity. }
  split; [exact two_descriptions_owned|]. split; [exact Hvalid|].
  destruct (full_constructor_copies [] two_descriptions 3%positive ["trickle"]
              "u+/9" "0123456789abcdefghijkl" ICEMODE_FULL
              CONNECTIONROLE_ACTIVE (Some 1%positive) two_descriptions_owned
              Hvalid)
    as (m' & t' & Hrun & Hread & _ & _ & Hval & Hnew & _).
  exists m', t'. split; [exact Hrun|]. split; [exact Hread|].
  split; [exact Hval|].
  intros Hl. destruct (Hnew _ Hl) as [Hne _]. now apply Hne.
Defined.

(** X15: the constructors without a fingerprint argument are the
    six-argument constructor with the default arguments: the default
    constructor builds what the two-string constructor builds from two
    empty strings, and that one builds what the six-argument constructor
    builds from an empty option list, ICEMODE_FULL, CONNECTIONROLE_NONE
    and a null fingerprint.  They allocate nothing, leave the other
    objects alone and keep ownership exclusive. *)
Theorem plain_constructors {SSLFingerprint OpaqueParameters : Type}
    (none : OpaqueParameters)
    (m : Memory SSLFingerprint OpaqueParameters) (this : positive)
    (u p : string) (Hown : owned m) :
  TransportDescription_default none this m
  = TransportDescription_credentials none this "" "" m /\
  TransportDescription_full none this [] u p ICEMODE_FULL CONNECTIONROLE_NONE
    None m
  = Some (TransportDescription_credentials none this u p m) /\
  fingerprints (TransportDescription_credentials none this u p m)
  = fingerprints m /\
  others_kept m (TransportDescription_credentials none this u p m) this /\
  owned (TransportDescription_credentials none this u p m).
Proof.
  split; [reflexivity|]. split; [reflexivity|]. split; [reflexivity|].
  apply write_without_fingerprint; [exact Hown | reflexivity].
Qed.

Lemma plain_constructors_witness :
  owned two_descriptions /\
  TransportDescription_full [] 3%positive [] "u+/9" "0123456789abcdefghijkl"
    ICEMODE_FULL CONNECTIONROLE_NONE None two_descriptions
  = Some (TransportDescription_credentials [] 3%positive "u+/9"
            "0123456789abcdefghijkl" two_descriptions) /\
  owned (TransportDescription_credentials [] 3%positive "u+/9"
           "0123456789abcdefghijkl" two_descriptions).
Proof.
  split; [exact two_descriptions_owned|].
  destruct (plain_constructors [] two_descriptions 3%positive "u+/9"
              "0123456789abcdefghijkl" two_descriptions_owned)
    as (_ & Hfull & _ & _ & Hown).
  split; [exact Hfull | exact Hown].
Defined.

(** X16: copies compose.  Copy-constructing [b] from [a] and then
    assigning [b] to a third description [c] leaves [c] with the field
    values and the fingerprint value of [a], while [a] itself is as it
    was; the three descriptions own three different cells. *)
Theorem copy_of_a_copy {SSLFingerprint OpaqueParameters : Type}
    (m : Memory SSLFingerprint OpaqueParameters) (a b c : positive)
    (f t : TransportDescription OpaqueParameters)
    (Hown : owned m) (Ha : read a m = Some f) (Hb : read b m = None)
    (Hc : read c m = Some t) (Hca : c <> a) :
  exists m1 m2 tb tc,
    TransportDescription_copy b a m = Some m1 /\
    TransportDescription_assign c b m1 = Some m2 /\
    read a m2 = Some f /\ read b m2 = Some tb /\ read c m2 = Some tc /\
    same_fields tc f /\
    fingerprint_value m2 tc = fingerprint_value m f /\
    fingerprint_value m2 tb = fingerprint_value m f /\
    fingerprint_value m2 f = fingerprint_value m f /\
    (forall l, identity_fingerprint f = Some l ->
       identity_fingerprint tb <> Some l /\ identity_fingerprint tc <> Some l /\
       identity_fingerprint tb <> identity_fingerprint tc) /\
    owned m2.
Proof.
  assert (Hba : b <> a) by congruence.
  assert (Hcb : c <> b) by congruence.
  destruct (copy_constructor_outcome b a m f Hown Ha)
    as (m1 & tb0 & Hrun1 & Hout1).
  pose proof (copy_outcome_kept m m1 b f None tb0 Hown
                ltac:(discriminate) Hout1) as Hkept1.
  destruct (copy_outcome_deep m m1 b a f None tb0 Hown Ha Hba
              ltac:(discriminate) ltac:(discriminate) Hout1)
    as [(tb & Htb & Hsame1 & Hval1 & Hnull1 & _ & Ha1 & Hfa1) Hown1].
  destruct (Hkept1 c t Hcb Hc) as [Hc1 _].
  destruct (copy_assignment_outcome c b m1 tb t Hown1 Htb Hc1 Hcb)
    as (m2 & tc0 & Hrun2 & Hout2).
  pose proof (copy_outcome_kept m1 m2 c tb (identity_fingerprint t) tc0 Hown1
                (old_cell_exclusive m1 c t Hown1 Hc1) Hout2) as Hkept2.
  destruct (copy_outcome_deep m1 m2 c b tb (identity_fingerprint t) tc0 Hown1
              Htb Hcb
              (fun o Ho => proj1 Hown1 c t o Hc1 Ho)
              (old_cell_exclusive m1 c t Hown1 Hc1) Hout2)
    as [(tc & Htc & Hsame2 & Hval2 & Hnull2 & _ & Hb2 & Hfb2) Hown2].
  destruct (Hkept2 a f (not_eq_sym Hca) Ha1) as [Ha2 Hfa2].
  exists m1, m2, tb, tc.
  split; [exact Hrun1|]. split; [exact Hrun2|]. split; [exact Ha2|].
  split; [exact Hb2|]. split; [exact Htc|].
  split; [exact (same_fields_trans tc tb f Hsame2 Hsame1)|].
  split; [congruence|]. split; [congruence|]. split; [congruence|].
  split; [|exact Hown2].
  intros l Hl. destruct Hown2 as [_ Hex2].
  assert (Hbl : identity_fingerprint tb <> Some l).
  { intros E. apply Hba. exact (Hex2 b a tb f l Hb2 Ha2 E Hl). }
  assert (Hcl : identity_fingerprint tc <> Some l).
  { intros E. apply Hca. exact (Hex2 c a tc f l Htc Ha2 E Hl). }
  split; [exact Hbl|]. split; [exact Hcl|].
  destruct (identity_fingerprint tb) as [lb|] eqn:Elb.
  - intros E. apply Hcb. symmetry in E.
    exact (Hex2 c b tc tb lb Htc Hb2 E Elb).
  - exfalso. assert (identity_fingerprint f = None) by tauto. congruence.
Qed.

Lemma copy_of_a_copy_witness :
  owned two_descriptions /\
  read 1%positive two_descriptions = Some offer /\
  read 3%positive two_descriptions = None /\
  read 2%positive two_descriptions = Some blank /\
  2%positive <> 1%positive /\
  exists m1 m2 tc,
    TransportDescription_copy 3%positive 1%positive two_descriptions = Some m1 /\
    TransportDescription_assign 2%positive 3%positive m1 = Some m2 /\
    read 2%positive m2 = Some tc /\
    same_fields tc offer /\
    fingerprint_value m2 tc = Some "sha-256 4A:AD:B9:B1".
Proof.
  split; [exact two_descriptions_owned|].
  split; [reflexivity|]. split; [reflexivity|]. split; [reflexivity|].
  split; [discriminate|].
  destruct (copy_of_a_copy two_descriptions 1%positive 3%positive 2%positive
              offer blank two_descriptions_owned eq_refl eq_refl eq_refl
              ltac:(discriminate))
    as (m1 & m2 & tb & tc & H1 & H2 & _ & _ & Htc & Hs & Hv & _).
  exists m1, m2, tc.
  split; [exact H1|]. split; [exact H2|]. split; [exact Htc|].
  split; [exact Hs | exact Hv].
Defined.
